(** * Tic-tac-toe solver of [gameHome.tsx]: outcome evaluator, alpha-beta
    search and move selector

    The three functions [checkWinner], [minimax] and [getBestMove] of
    [src/screenComponents/game-home/gameHome.tsx] are embedded as Rocq
    functions.  The board is a JavaScript array that the search mutates in
    place; it is modelled as a list threaded through a small state monad, so
    that the place/undo discipline of the source is visible in the model.
    The recursion of [minimax] is not structural; the model takes a fuel
    argument and the development proves that fuel above the number of empty
    cells always suffices. *)

From Stdlib Require Import ZArith Lia Bool.
From stdpp Require Import base decidable option list sorting.

Local Open Scope Z_scope.

(** ** Data model *)

(** [type Mark = 'X' | 'O' | null]: a cell is [Some X], [Some O] or [None]
    (the source's [null]). *)
Inductive mark : Type := X | O.

#[global] Instance mark_eq_dec : EqDecision mark.
Proof. solve_decision. Defined.

Abbreviation Mark := (option mark).
Abbreviation Board := (list Mark).

(** What [checkWinner] returns, [Mark | 'draw' | null]: the mark read from
    the board at a completed line, the string ['draw'], or [null]. *)
Inductive outcome : Type :=
| RMark (m : mark)
| RDraw
| RNull.

(** JavaScript numbers as the search uses them: integers (depths and the
    scores [10 - depth], [depth - 10], [0], which doubles represent exactly)
    and the two infinities that initialise the bounds. *)
Inductive num : Type :=
| NegInf
| Fin (z : Z)
| PosInf.

(** [a <= b] on numbers. *)
Definition num_leb (a b : num) : bool :=
  match a, b with
  | NegInf, _ => true
  | _, PosInf => true
  | Fin x, Fin y => x <=? y
  | _, _ => false
  end.

(** [a > b] on numbers. *)
Definition num_gtb (a b : num) : bool := negb (num_leb a b).

Definition Math_max (a b : num) : num := if num_leb a b then b else a.
Definition Math_min (a b : num) : num := if num_leb a b then a else b.

Definition num_le (a b : num) : Prop := num_leb a b = true.
Definition num_lt (a b : num) : Prop := num_leb b a = false.

(** ** Outcome evaluator *)

Definition patterns : list (nat * nat * nat) :=
  [ (0, 1, 2); (3, 4, 5); (6, 7, 8);
    (0, 3, 6); (1, 4, 7); (2, 5, 8);
    (0, 4, 8); (2, 4, 6) ]%nat.

(** The test [cells[a] && cells[a] === cells[b] && cells[a] === cells[c]].
    A read [cells !! i] is [None] where JavaScript reads [undefined] (index
    past the end), [Some None] for [null]; both are falsy. *)
Definition line_complete (cells : Board) (line : nat * nat * nat) : bool :=
  let '(a, b, c) := line in
  match cells !! a with
  | Some (Some _) =>
      bool_decide (cells !! a = cells !! b) && bool_decide (cells !! a = cells !! c)
  | _ => false
  end.

(** [val => val]: truthiness of a cell. *)
Definition truthy (val : Mark) : bool :=
  match val with Some _ => true | None => false end.

(** The [for (let line of patterns)] loop, with what follows it once the
    lines are exhausted. *)
Fixpoint checkWinner_from (cells : Board) (lines : list (nat * nat * nat)) : outcome :=
  match lines with
  | [] => if forallb truthy cells then RDraw else RNull
  | line :: rest =>
      if line_complete cells line
      then match cells !! (line.1.1) with
           | Some (Some m) => RMark m
           | _ => RNull
           end
      else checkWinner_from cells rest
  end.

Definition checkWinner (cells : Board) : outcome := checkWinner_from cells patterns.

(** ** The board as a mutable array: a state monad with fuel

    A computation takes the current contents of the array and returns its
    result with the new contents; [None] stands for fuel exhausted only
    (the source has no [throw]). *)
Definition M (A : Type) : Type := Board → option (A * Board).

Definition ret {A} (a : A) : M A := λ board, Some (a, board).

Definition bind {A B} (c : M A) (k : A → M B) : M B :=
  λ board, match c board with
           | Some (a, board') => k a board'
           | None => None
           end.

Definition out_of_fuel {A} : M A := λ _, None.

(** Reading the whole array. *)
Definition get_board : M Board := λ board, Some (board, board).

(** [board[i] = v].  Every index written by the search comes from the
    [moves] of the same array and is in range (lemma [emptyCells_lookup]),
    where the list update and the JavaScript assignment agree. *)
Definition store (i : Z) (v : Mark) : M unit :=
  λ board, Some (tt, <[Z.to_nat i := v]> board).

Declare Scope board_monad_scope.
Delimit Scope board_monad_scope with bm.
Notation "x <- c ;; k" := (bind c (λ x, k))
  (at level 100, c at next level, right associativity) : board_monad_scope.
Notation "c ;; k" := (bind c (λ _, k))
  (at level 100, right associativity) : board_monad_scope.
Local Open Scope board_monad_scope.

(** [board.map((val, i) => (val === null ? i : -1)).filter(i => i !== -1)] *)
Definition emptyCells (board : Board) : list Z :=
  filter (λ i : Z, i ≠ -1)
         (imap (λ (i : nat) (val : Mark), if decide (val = None) then Z.of_nat i else -1) board).

(** ** Search engine *)

(** The maximizing loop of [minimax]; [search alpha beta] is the recursive
    call [minimax(board, depth + 1, false, alpha, beta)]. *)
Fixpoint max_loop (search : num → num → M num) (moves : list Z)
    (maxEval alpha beta : num) : M num :=
  match moves with
  | [] => ret maxEval
  | move :: rest =>
      store move (Some O) ;;
      score <- search alpha beta ;;
      store move None ;;
      let maxEval := Math_max maxEval score in
      let alpha := Math_max alpha score in
      if num_leb beta alpha then ret maxEval
      else max_loop search rest maxEval alpha beta
  end.

(** The minimizing loop of [minimax]. *)
Fixpoint min_loop (search : num → num → M num) (moves : list Z)
    (minEval alpha beta : num) : M num :=
  match moves with
  | [] => ret minEval
  | move :: rest =>
      store move (Some X) ;;
      score <- search alpha beta ;;
      store move None ;;
      let minEval := Math_min minEval score in
      let beta := Math_min beta score in
      if num_leb beta alpha then ret minEval
      else min_loop search rest minEval alpha beta
  end.

Fixpoint minimax (fuel : nat) (depth : Z) (isCPU : bool) (alpha beta : num) : M num :=
  match fuel with
  | 0%nat => out_of_fuel
  | S fuel =>
      board <- get_board ;;
      match checkWinner board with
      | RMark O => ret (Fin (10 - depth))
      | RMark X => ret (Fin (depth - 10))
      | RDraw => ret (Fin 0)
      | RNull =>
          let moves := emptyCells board in
          if isCPU
          then max_loop (minimax fuel (depth + 1) false) moves NegInf alpha beta
          else min_loop (minimax fuel (depth + 1) true) moves PosInf alpha beta
      end
  end.

(** ** Move selector *)

(** The [for (let i of candidates)] loop of [getBestMove]. *)
Fixpoint best_loop (fuel : nat) (candidates : list Z) (topScore : num) (bestMove : Z) : M Z :=
  match candidates with
  | [] => ret bestMove
  | i :: rest =>
      store i (Some O) ;;
      score <- minimax fuel 0 false NegInf PosInf ;;
      store i None ;;
      if num_gtb score topScore
      then best_loop fuel rest score i
      else best_loop fuel rest topScore bestMove
  end.

Definition getBestMove (fuel : nat) : M Z :=
  currentBoard <- get_board ;;
  let candidates := emptyCells currentBoard in
  best_loop fuel candidates NegInf 0.

Definition emptyBoard : Board := replicate 9 None.


(** ** Plain minimax, for comparison

    The same recursion as [minimax] with the [if (beta <= alpha) break]
    removed from both loops; everything else is kept as it is. *)

Fixpoint max_loop_noprune (search : num → num → M num) (moves : list Z)
    (maxEval alpha beta : num) : M num :=
  match moves with
  | [] => ret maxEval
  | move :: rest =>
      store move (Some O) ;;
      score <- search alpha beta ;;
      store move None ;;
      let maxEval := Math_max maxEval score in
      let alpha := Math_max alpha score in
      max_loop_noprune search rest maxEval alpha beta
  end.

Fixpoint min_loop_noprune (search : num → num → M num) (moves : list Z)
    (minEval alpha beta : num) : M num :=
  match moves with
  | [] => ret minEval
  | move :: rest =>
      store move (Some X) ;;
      score <- search alpha beta ;;
      store move None ;;
      let minEval := Math_min minEval score in
      let beta := Math_min beta score in
      min_loop_noprune search rest minEval alpha beta
  end.

Fixpoint minimax_noprune (fuel : nat) (depth : Z) (isCPU : bool) (alpha beta : num) : M num :=
  match fuel with
  | 0%nat => out_of_fuel
  | S fuel =>
      board <- get_board ;;
      match checkWinner board with
      | RMark O => ret (Fin (10 - depth))
      | RMark X => ret (Fin (depth - 10))
      | RDraw => ret (Fin 0)
      | RNull =>
          let moves := emptyCells board in
          if isCPU
          then max_loop_noprune (minimax_noprune fuel (depth + 1) false) moves NegInf alpha beta
          else min_loop_noprune (minimax_noprune fuel (depth + 1) true) moves PosInf alpha beta
      end
  end.

(** ** Values of the search, without the array

    Once the array is known to be restored after every call, the score is a
    function of the board passed by value.  These definitions are the
    scores that the stateful functions above are proved to return
    ([minimax_run], [minimax_noprune_run], [getBestMove_run]). *)

(** Number of [null] cells: the measure that decreases along the recursion. *)
Definition empties (board : Board) : nat := length (emptyCells board).

(** [board] with [m] placed at index [i]. *)
Definition place (board : Board) (i : Z) (m : mark) : Board :=
  <[Z.to_nat i := Some m]> board.

Fixpoint max_pure (f : Z → num → num → num) (moves : list Z)
    (maxEval alpha beta : num) : num :=
  match moves with
  | [] => maxEval
  | move :: rest =>
      let score := f move alpha beta in
      let maxEval := Math_max maxEval score in
      let alpha := Math_max alpha score in
      if num_leb beta alpha then maxEval else max_pure f rest maxEval alpha beta
  end.

Fixpoint min_pure (f : Z → num → num → num) (moves : list Z)
    (minEval alpha beta : num) : num :=
  match moves with
  | [] => minEval
  | move :: rest =>
      let score := f move alpha beta in
      let minEval := Math_min minEval score in
      let beta := Math_min beta score in
      if num_leb beta alpha then minEval else min_pure f rest minEval alpha beta
  end.

(** Score of [minimax] on [board] with window [(alpha, beta)].  Without
    fuel the value is a placeholder; the lemmas only use fuel above the
    number of empty cells, where it is never reached. *)
Fixpoint ab (fuel : nat) (board : Board) (depth : Z) (isCPU : bool) (alpha beta : num) : num :=
  match fuel with
  | 0%nat => Fin 0
  | S fuel =>
      match checkWinner board with
      | RMark O => Fin (10 - depth)
      | RMark X => Fin (depth - 10)
      | RDraw => Fin 0
      | RNull =>
          if isCPU
          then max_pure (λ i, ab fuel (place board i O) (depth + 1) false)
                        (emptyCells board) NegInf alpha beta
          else min_pure (λ i, ab fuel (place board i X) (depth + 1) true)
                        (emptyCells board) PosInf alpha beta
      end
  end.

Fixpoint max_all (g : Z → num) (moves : list Z) (maxEval : num) : num :=
  match moves with
  | [] => maxEval
  | move :: rest => max_all g rest (Math_max maxEval (g move))
  end.

Fixpoint min_all (g : Z → num) (moves : list Z) (minEval : num) : num :=
  match moves with
  | [] => minEval
  | move :: rest => min_all g rest (Math_min minEval (g move))
  end.

(** Score of [minimax_noprune] on [board]. *)
Fixpoint plain (fuel : nat) (board : Board) (depth : Z) (isCPU : bool) : num :=
  match fuel with
  | 0%nat => Fin 0
  | S fuel =>
      match checkWinner board with
      | RMark O => Fin (10 - depth)
      | RMark X => Fin (depth - 10)
      | RDraw => Fin 0
      | RNull =>
          if isCPU
          then max_all (λ i, plain fuel (place board i O) (depth + 1) false)
                       (emptyCells board) NegInf
          else min_all (λ i, plain fuel (place board i X) (depth + 1) true)
                       (emptyCells board) PosInf
      end
  end.

(** The index chosen by the loop of [getBestMove], from the scores of the
    candidates. *)
Fixpoint best_pure (score : Z → num) (candidates : list Z) (topScore : num) (bestMove : Z) : Z :=
  match candidates with
  | [] => bestMove
  | i :: rest =>
      if num_gtb (score i) topScore
      then best_pure score rest (score i) i
      else best_pure score rest topScore bestMove
  end.

(** Score of the candidate [i] in [getBestMove]: the call
    [minimax(currentBoard, 0, false, -Infinity, Infinity)] after placing
    ['O'] at [i]. *)
Definition score_of (fuel : nat) (board : Board) (i : Z) : num :=
  ab fuel (place board i O) 0 false NegInf PosInf.

Definition bestMove_of (fuel : nat) (board : Board) : Z :=
  best_pure (score_of fuel board) (emptyCells board) NegInf 0.

(** ** Self-play

    [getBestMove] searches for ['O'].  A side that calls it for its own turn
    is the searching player: [as_searcher] shows ['X'] the board with the
    two marks exchanged.  [as_is] passes the board unchanged.  The caller
    hands [getBestMove] a copy of the board, [getBestMove([...board])], and
    writes the returned index into another copy. *)
Definition other (m : mark) : mark := match m with X => O | O => X end.

Definition mirror (board : Board) : Board := map (option_map other) board.

Definition as_searcher (who : mark) (board : Board) : Board :=
  match who with O => board | X => mirror board end.

Definition as_is (who : mark) (board : Board) : Board := board.

(** Both sides take their move from [getBestMove] until [checkWinner]
    reports an end; [turns] bounds the number of moves. *)
Fixpoint selfplay (view : mark → Board → Board) (turns : nat) (who : mark)
    (board : Board) : option Board :=
  match checkWinner board with
  | RNull =>
      match turns with
      | 0%nat => None
      | S turns =>
          match getBestMove 9 (view who board) with
          | Some (botMove, _) =>
              selfplay view turns (other who) (<[Z.to_nat botMove := Some who]> board)
          | None => None
          end
      end
  | _ => Some board
  end.

(** ** Boards used in the examples *)

(** [[X,O,X,O,X,O,O,X,O]]: full, no line. *)
Definition fullBoard : Board :=
  [Some X; Some O; Some X; Some O; Some X; Some O; Some O; Some X; Some O].

(** [[X,X,X,O,O,null,null,null,null]]: won by ['X'], cells still empty. *)
Definition wonBoard : Board :=
  [Some X; Some X; Some X; Some O; Some O; None; None; None; None].

(** [[O,O,null,X,X,null,null,null,null]] *)
Definition scenario4 : Board :=
  [Some O; Some O; None; Some X; Some X; None; None; None; None].

(** [[null,null,null,X,X,X,O,O,null]]: the middle row is already ['X']'s;
    cell 8 would fill the bottom row with ['O']. *)
Definition lateBoard : Board :=
  [None; None; None; Some X; Some X; Some X; Some O; Some O; None].

(** [[X,X,null,null,O,null,null,null,null]]: ['X'] threatens cell 2 only. *)
Definition threatBoard : Board :=
  [Some X; Some X; None; None; Some O; None; None; None; None].

(** ** Vocabulary of the specification *)

(** Row-major indexing of the 3x3 grid. *)
Definition rows : list (nat * nat * nat) :=
  (λ r, (3 * r, 3 * r + 1, 3 * r + 2)%nat) <$> [0; 1; 2]%nat.
Definition columns : list (nat * nat * nat) :=
  (λ c, (c, c + 3, c + 6)%nat) <$> [0; 1; 2]%nat.
Definition diagonals : list (nat * nat * nat) := [(0, 4, 8); (2, 4, 6)]%nat.

(** All three cells of [line] hold the mark [m]. *)
Definition line_full (cells : Board) (m : mark) (line : nat * nat * nat) : Prop :=
  cells !! line.1.1 = Some (Some m) ∧
  cells !! line.1.2 = Some (Some m) ∧
  cells !! line.2 = Some (Some m).

(** No win-line of [lines] is filled by one mark. *)
Definition no_line (cells : Board) (lines : list (nat * nat * nat)) : Prop :=
  ∀ line m, line ∈ lines → ¬ line_full cells m line.

Definition on_line (i : nat) (line : nat * nat * nat) : Prop :=
  i = line.1.1 ∨ i = line.1.2 ∨ i = line.2.

(** Cell [i] is empty and placing [m] there completes a win-line through
    [i]: a one-move win of [m]. *)
Definition completes (board : Board) (m : mark) (i : nat) : Prop :=
  board !! i = Some None ∧
  ∃ line, line ∈ patterns ∧ on_line i line ∧ line_full (<[i := Some m]> board) m line.


(** Executable forms of the vocabulary, for concrete boards. *)
Definition on_lineb (i : nat) (line : nat * nat * nat) : bool :=
  Nat.eqb i line.1.1 || Nat.eqb i line.1.2 || Nat.eqb i line.2.

Definition line_fullb (cells : Board) (m : mark) (line : nat * nat * nat) : bool :=
  bool_decide (cells !! line.1.1 = Some (Some m)) &&
  bool_decide (cells !! line.1.2 = Some (Some m)) &&
  bool_decide (cells !! line.2 = Some (Some m)).

Definition completesb (board : Board) (m : mark) (i : nat) : bool :=
  bool_decide (board !! i = Some None) &&
  existsb (λ line, on_lineb i line && line_fullb (<[i := Some m]> board) m line) patterns.


(** [ab_rel alpha beta m v]: [v] is what a pruned search may return for a
    node of exact value [m] under the window [(alpha, beta)]: exact inside
    the window, on the same side of the window outside it. *)
Definition ab_rel (alpha beta m v : num) : Prop :=
  (num_le m alpha → num_le v alpha) ∧
  (num_le beta m → num_le beta v) ∧
  (num_lt alpha m → num_lt m beta → v = m).

(** ** Exchanging the two marks *)

(** The number with the opposite sign. *)
Definition num_neg (a : num) : num :=
  match a with
  | NegInf => PosInf
  | Fin z => Fin (- z)
  | PosInf => NegInf
  end.

(** The outcome with the two marks exchanged. *)
Definition mirror_outcome (w : outcome) : outcome :=
  match w with
  | RMark m => RMark (other m)
  | RDraw => RDraw
  | RNull => RNull
  end.

(** ** The game screen: state and handlers of [GameHome]

    The component keeps the board, the turn flag and the mode flag in React
    state; each handler is modelled as a function from the state it reads
    to the state it sets.  The animation values ([bounceAnims],
    [statusFade]) only drive the display and are left out. *)

Module GameHome.

Record state : Type := {
  board : Board;
  xTurn : bool;
  versusBot : bool
}.

(** [const winner = checkWinner(board)] *)
Definition winner (st : state) : outcome := checkWinner (board st).

(** Truthiness of [winner]: ['X'], ['O'] and ['draw'] are truthy, [null]
    is not. *)
Definition is_winner (w : outcome) : bool :=
  match w with RNull => false | _ => true end.

(** Truthiness of [board[index]]; a read past the end is [undefined]. *)
Definition occupied (cells : Board) (index : nat) : bool :=
  match cells !! index with Some (Some _) => true | _ => false end.

(** [handleMove(index)].  The cells rendered, and so the indices passed by
    [onPress], are those of [board.map((val, i) => ...)]: in range, where
    the list update is the assignment [next[index] = ...]. *)
Definition handleMove (index : nat) (st : state) : state :=
  if occupied (board st) index || is_winner (winner st) then st
  else if versusBot st && negb (xTurn st) then st
  else {| board := <[index := Some (if xTurn st then X else O)]> (board st);
          xTurn := negb (xTurn st);
          versusBot := versusBot st |}.

(** [board.includes(null)] *)
Definition includes_null (cells : Board) : bool :=
  existsb (λ val : Mark, bool_decide (val = None)) cells.

(** The condition of the effect that schedules the computer's move. *)
Definition botDue (st : state) : bool :=
  versusBot st && negb (xTurn st) && negb (is_winner (winner st)) && includes_null (board st).

(** The callback of the timer, when the effect has scheduled it:
    [getBestMove] runs on a copy of the board, the index it returns is
    written into another copy, and the turn goes to ['X'].  [None]: no timer
    is scheduled in this state.  The fuel given to [getBestMove] is the
    length of the board, which is always enough ([botTimer_due]). *)
Definition botTimer (st : state) : option state :=
  if botDue st then
    match getBestMove (length (board st)) (board st) with
    | Some (botMove, _) =>
        Some {| board := <[Z.to_nat botMove := Some O]> (board st);
                xTurn := true;
                versusBot := versusBot st |}
    | None => None
    end
  else None.

(** [restartGame()] *)
Definition restartGame (st : state) : state :=
  {| board := replicate 9 None; xTurn := true; versusBot := versusBot st |}.

(** [switchMode()]: [setVersusBot(prev => !prev); restartGame();] *)
Definition switchMode (st : state) : state :=
  restartGame {| board := board st; xTurn := xTurn st; versusBot := negb (versusBot st) |}.

(** The state of [useState] at mount. *)
Definition initial : state :=
  {| board := replicate 9 None; xTurn := true; versusBot := true |}.

(** What can happen to the screen: a press on a rendered cell, the timer of
    the computer's move, the New Game button (rendered only when [winner]
    is truthy) and the mode button. *)
Inductive event : Type :=
| Press (index : nat)
| BotTimer
| NewGame
| SwitchMode.

Definition step (e : event) (st : state) : option state :=
  match e with
  | Press index =>
      if bool_decide (index < length (board st))%nat then Some (handleMove index st) else None
  | BotTimer => botTimer st
  | NewGame => if is_winner (winner st) then Some (restartGame st) else None
  | SwitchMode => Some (switchMode st)
  end.

(** The states the screen can be in. *)
Inductive reachable : state → Prop :=
| reachable_initial : reachable initial
| reachable_step st e st' : reachable st → step e st = Some st' → reachable st'.

End GameHome.

(** Number of cells holding [c]. *)
Definition count_cell (c : Mark) (cells : Board) : nat :=
  length (filter (λ val : Mark, val = c) cells).

(** Exhaustive exploration of the games against the computer from [cells]:
    every press of ['X'] on an empty cell when it is its turn, the reply of
    [getBestMove] otherwise; [false] as soon as ['X'] has a line. *)
Fixpoint computer_safe (n : nat) (cells : Board) (xTurn : bool) : bool :=
  match checkWinner cells with
  | RMark X => false
  | RMark O => true
  | RDraw => true
  | RNull =>
      match n with
      | 0%nat => false
      | S n =>
          if xTurn
          then forallb (λ i, computer_safe n (<[Z.to_nat i := Some X]> cells) false)
                       (emptyCells cells)
          else match getBestMove (length cells) cells with
               | Some (botMove, _) =>
                   computer_safe n (<[Z.to_nat botMove := Some O]> cells) true
               | None => false
               end
      end
  end.

(** A run of moves: presses and computer's moves, each of which changes the
    state (a press that the handler ignores is no move). *)
Inductive moves : list GameHome.event → GameHome.state → GameHome.state → Prop :=
| moves_nil st : moves [] st st
| moves_cons e es st st1 st' :
    (e = GameHome.BotTimer ∨ ∃ index, e = GameHome.Press index) →
    GameHome.step e st = Some st1 →
    st1 ≠ st →
    moves es st1 st' →
    moves (e :: es) st st'.

(** The shape of the board and the balance of the marks. *)
Definition balanced (st : GameHome.state) : Prop :=
  length (GameHome.board st) = 9%nat ∧
  count_cell (Some X) (GameHome.board st)
  = (count_cell (Some O) (GameHome.board st) + if GameHome.xTurn st then 0 else 1)%nat.

(** In vs-computer mode the exploration from the current board finds no
    line of ['X']. *)
Definition unbeaten (st : GameHome.state) : Prop :=
  GameHome.versusBot st = true → ∃ n, computer_safe n (GameHome.board st) (GameHome.xTurn st) = true.

(** * Properties *)

(** ** The order on numbers *)

Ltac num_red := cbv beta iota delta [num_le num_lt num_gtb Math_max Math_min num_leb negb] in *.

Ltac num_solve :=
  num_red;
  repeat match goal with x : num |- _ => destruct x end;
  num_red;
  try discriminate; try tauto;
  repeat match goal with
         | H : Z.leb ?x ?y = true |- _ => apply Z.leb_le in H
         | H : Z.leb ?x ?y = false |- _ => apply Z.leb_gt in H
         | H : context [Z.leb ?x ?y] |- _ => destruct (Z.leb_spec x y); num_red; try discriminate
         | |- context [Z.leb ?x ?y] => destruct (Z.leb_spec x y); num_red
         end;
  try discriminate; try congruence; try lia;
  try (f_equal; lia).

Lemma num_le_refl a : num_le a a.
Proof. num_solve. Qed.

Lemma num_le_trans a b c : num_le a b → num_le b c → num_le a c.
Proof. num_solve. Qed.

Lemma num_lt_le a b : num_lt a b → num_le a b.
Proof. num_solve. Qed.

Lemma num_le_lt_trans a b c : num_le a b → num_lt b c → num_lt a c.
Proof. num_solve. Qed.

Lemma num_lt_le_trans a b c : num_lt a b → num_le b c → num_lt a c.
Proof. num_solve. Qed.

Lemma num_gtb_true a b : num_gtb a b = true ↔ num_lt b a.
Proof. unfold num_gtb, num_lt. destruct (num_leb a b); simpl; split; congruence. Qed.

Lemma Math_max_ge_l a b : num_le a (Math_max a b).
Proof. num_solve. Qed.

Lemma Math_min_le_l a b : num_le (Math_min a b) a.
Proof. num_solve. Qed.

Lemma Math_min_le_r a b : num_le (Math_min a b) b.
Proof. num_solve. Qed.

(** ** Alpha-beta pruning over arbitrary child scores *)

Lemma ab_rel_full m v : ab_rel NegInf PosInf m v → v = m.
Proof. unfold ab_rel. intros (H1 & H2 & H3). num_solve; try (apply H3; reflexivity); try (specialize (H1 eq_refl); discriminate); try (specialize (H2 eq_refl); discriminate). Qed.

Lemma max_all_ge g moves best : num_le best (max_all g moves best).
Proof.
  revert best. induction moves as [|i rest IH]; intros best; simpl.
  - apply num_le_refl.
  - eapply num_le_trans; [apply Math_max_ge_l | apply IH].
Qed.

Lemma min_all_le g moves best : num_le (min_all g moves best) best.
Proof.
  revert best. induction moves as [|i rest IH]; intros best; simpl.
  - apply num_le_refl.
  - eapply num_le_trans; [apply IH | apply Math_min_le_l].
Qed.

Section AlphaBeta.
Variable f : Z → num → num → num.
Variable g : Z → num.

(** One step of the maximizing loop keeps the loop invariant, or cuts off
    with a value that is right for the window. *)
Lemma max_step_cut alpha0 alpha beta best bestp m v rest_value :
  num_lt alpha beta →
  alpha = Math_max alpha0 best →
  ab_rel alpha beta m v →
  num_leb beta (Math_max alpha v) = true →
  num_le (Math_max bestp m) rest_value →
  ab_rel alpha0 beta rest_value (Math_max best v).
Proof.
  unfold ab_rel. intros Hlt -> (H1 & H2 & H3) Hcut Hrest.
  assert (Hm : num_le beta m).
  { destruct (num_leb beta m) eqn:E; [exact E|exfalso].
    destruct (num_leb m (Math_max alpha0 best)) eqn:E'.
    - specialize (H1 E'). clear H2 H3. num_solve.
    - specialize (H3 E' E). subst v. clear H1 H2. num_solve. }
  specialize (H2 Hm). clear H1 H3.
  repeat split; intros; num_solve.
Qed.

Lemma max_step_keep alpha0 alpha beta best bestp m v :
  num_lt alpha beta →
  alpha = Math_max alpha0 best →
  (num_le bestp alpha0 → num_le best alpha0) →
  (num_lt alpha0 bestp → best = bestp) →
  ab_rel alpha beta m v →
  num_leb beta (Math_max alpha v) = false →
  num_lt (Math_max alpha v) beta ∧
  Math_max alpha v = Math_max alpha0 (Math_max best v) ∧
  (num_le (Math_max bestp m) alpha0 → num_le (Math_max best v) alpha0) ∧
  (num_lt alpha0 (Math_max bestp m) → Math_max best v = Math_max bestp m).
Proof.
  unfold ab_rel. intros Hlt -> Hlo Hhi (H1 & H2 & H3) Hcut.
  destruct (num_leb m (Math_max alpha0 best)) eqn:E1.
  - specialize (H1 E1). clear H2 H3.
    destruct (num_leb bestp alpha0) eqn:E2.
    + specialize (Hlo E2). clear Hhi. repeat split; intros; num_solve.
    + specialize (Hhi E2). subst best. clear Hlo. repeat split; intros; num_solve.
  - destruct (num_leb beta m) eqn:E3.
    + specialize (H2 E3). clear H1 H3 Hlo Hhi. exfalso. num_solve.
    + specialize (H3 E1 E3). subst v. clear H1 H2.
      destruct (num_leb bestp alpha0) eqn:E2.
      * specialize (Hlo E2). clear Hhi. repeat split; intros; num_solve.
      * specialize (Hhi E2). subst best. clear Hlo. repeat split; intros; num_solve.
Qed.

Lemma max_pure_sound moves : ∀ best bestp alpha0 alpha beta,
  (∀ i a b, i ∈ moves → num_lt a b → ab_rel a b (g i) (f i a b)) →
  num_lt alpha beta →
  alpha = Math_max alpha0 best →
  (num_le bestp alpha0 → num_le best alpha0) →
  (num_lt alpha0 bestp → best = bestp) →
  ab_rel alpha0 beta (max_all g moves bestp) (max_pure f moves best alpha beta).
Proof.
  induction moves as [|i rest IH]; intros best bestp alpha0 alpha beta Hch Hlt Ha Hlo Hhi.
  - simpl. subst alpha. unfold ab_rel. clear Hch.
    destruct (num_leb bestp alpha0) eqn:E.
    + specialize (Hlo E). clear Hhi. repeat split; intros; num_solve.
    + specialize (Hhi E). subst best. clear Hlo. repeat split; intros; num_solve.
  - simpl.
    assert (Hi : ab_rel alpha beta (g i) (f i alpha beta)).
    { apply Hch; [left | exact Hlt]. }
    destruct (num_leb beta (Math_max alpha (f i alpha beta))) eqn:Hcut.
    + eapply max_step_cut; eauto using max_all_ge.
    + destruct (max_step_keep alpha0 alpha beta best bestp _ _ Hlt Ha Hlo Hhi Hi Hcut)
        as (K1 & K2 & K3 & K4).
      apply IH; auto.
      intros j a b Hj. apply Hch. right. exact Hj.
Qed.

Lemma min_step_cut beta0 alpha beta best bestp m v rest_value :
  num_lt alpha beta →
  beta = Math_min beta0 best →
  ab_rel alpha beta m v →
  num_leb (Math_min beta v) alpha = true →
  num_le rest_value (Math_min bestp m) →
  ab_rel alpha beta0 rest_value (Math_min best v).
Proof.
  unfold ab_rel. intros Hlt -> (H1 & H2 & H3) Hcut Hrest.
  assert (Hm : num_le m alpha).
  { destruct (num_leb m alpha) eqn:E; [exact E|exfalso].
    destruct (num_leb (Math_min beta0 best) m) eqn:E'.
    - specialize (H2 E'). clear H1 H3. num_solve.
    - specialize (H3 E E'). subst v. clear H1 H2. num_solve. }
  specialize (H1 Hm). clear H2 H3.
  repeat split; intros; num_solve.
Qed.

Lemma min_step_keep beta0 alpha beta best bestp m v :
  num_lt alpha beta →
  beta = Math_min beta0 best →
  (num_le beta0 bestp → num_le beta0 best) →
  (num_lt bestp beta0 → best = bestp) →
  ab_rel alpha beta m v →
  num_leb (Math_min beta v) alpha = false →
  num_lt alpha (Math_min beta v) ∧
  Math_min beta v = Math_min beta0 (Math_min best v) ∧
  (num_le beta0 (Math_min bestp m) → num_le beta0 (Math_min best v)) ∧
  (num_lt (Math_min bestp m) beta0 → Math_min best v = Math_min bestp m).
Proof.
  unfold ab_rel. intros Hlt -> Hlo Hhi (H1 & H2 & H3) Hcut.
  destruct (num_leb (Math_min beta0 best) m) eqn:E1.
  - specialize (H2 E1). clear H1 H3.
    destruct (num_leb beta0 bestp) eqn:E2.
    + specialize (Hlo E2). clear Hhi. repeat split; intros; num_solve.
    + specialize (Hhi E2). subst best. clear Hlo. repeat split; intros; num_solve.
  - destruct (num_leb m alpha) eqn:E3.
    + specialize (H1 E3). clear H2 H3 Hlo Hhi. exfalso. num_solve.
    + specialize (H3 E3 E1). subst v. clear H1 H2.
      destruct (num_leb beta0 bestp) eqn:E2.
      * specialize (Hlo E2). clear Hhi. repeat split; intros; num_solve.
      * specialize (Hhi E2). subst best. clear Hlo. repeat split; intros; num_solve.
Qed.

Lemma min_pure_sound moves : ∀ best bestp beta0 alpha beta,
  (∀ i a b, i ∈ moves → num_lt a b → ab_rel a b (g i) (f i a b)) →
  num_lt alpha beta →
  beta = Math_min beta0 best →
  (num_le beta0 bestp → num_le beta0 best) →
  (num_lt bestp beta0 → best = bestp) →
  ab_rel alpha beta0 (min_all g moves bestp) (min_pure f moves best alpha beta).
Proof.
  induction moves as [|i rest IH]; intros best bestp beta0 alpha beta Hch Hlt Hb Hlo Hhi.
  - simpl. subst beta. unfold ab_rel. clear Hch.
    destruct (num_leb beta0 bestp) eqn:E.
    + specialize (Hlo E). clear Hhi. repeat split; intros; num_solve.
    + specialize (Hhi E). subst best. clear Hlo. repeat split; intros; num_solve.
  - simpl.
    assert (Hi : ab_rel alpha beta (g i) (f i alpha beta)).
    { apply Hch; [left | exact Hlt]. }
    destruct (num_leb (Math_min beta (f i alpha beta)) alpha) eqn:Hcut.
    + eapply min_step_cut; eauto using min_all_le.
    + destruct (min_step_keep beta0 alpha beta best bestp _ _ Hlt Hb Hlo Hhi Hi Hcut)
        as (K1 & K2 & K3 & K4).
      apply IH; auto.
      intros j a b Hj. apply Hch. right. exact Hj.
Qed.
End AlphaBeta.

(** ** The outcome evaluator *)

Lemma patterns_order : patterns = rows ++ columns ++ diagonals.
Proof. reflexivity. Qed.

Lemma line_complete_true cells line :
  line_complete cells line = true ↔ ∃ m, line_full cells m line.
Proof.
  destruct line as [[a b] c]. unfold line_complete, line_full. simpl. split.
  - destruct (cells !! a) as [[m|]|] eqn:Ea; try discriminate.
    intros H. apply andb_true_iff in H as [H1 H2].
    apply bool_decide_eq_true in H1, H2. exists m. rewrite <- H1, <- H2. auto.
  - intros (m & Ha & Hb & Hc). rewrite Ha, Hb, Hc.
    rewrite !bool_decide_eq_true_2 by reflexivity. reflexivity.
Qed.

Lemma line_complete_false cells line :
  line_complete cells line = false ↔ ∀ m, ¬ line_full cells m line.
Proof.
  split.
  - intros H m Hm. assert (line_complete cells line = true) as E
      by (apply line_complete_true; eauto). congruence.
  - intros H. destruct (line_complete cells line) eqn:E; [|reflexivity].
    apply line_complete_true in E as [m Hm]. destruct (H m Hm).
Qed.

Lemma line_full_inj cells line m m' :
  line_full cells m line → line_full cells m' line → m = m'.
Proof. intros (H & _) (H' & _). congruence. Qed.

Lemma forallb_truthy cells :
  forallb truthy cells = true ↔ ∀ i, cells !! i ≠ Some None.
Proof.
  induction cells as [|c cells IH]; simpl.
  - split; [intros _ i; rewrite lookup_nil; discriminate | reflexivity].
  - rewrite andb_true_iff, IH. split.
    + intros [Hc H] [|i]; simpl; [destruct c; [discriminate|discriminate Hc] | apply H].
    + intros H. split.
      * destruct c; [reflexivity|]. destruct (H 0%nat). reflexivity.
      * intros i. apply (H (S i)).
Qed.

Lemma not_all_truthy cells :
  forallb truthy cells = false ↔ ∃ i, cells !! i = Some None.
Proof.
  induction cells as [|c cells IH]; simpl.
  - split; [discriminate | intros [i H]; rewrite lookup_nil in H; discriminate].
  - rewrite andb_false_iff, IH. split.
    + intros [Hc | [i H]]; [exists 0%nat; destruct c; [discriminate|reflexivity] | exists (S i); exact H].
    + intros [[|i] H]; simpl in H; [left; injection H as ->; reflexivity | right; eauto].
Qed.

(** What the loop over [lines] returns, for any list of lines. *)
Lemma checkWinner_from_mark cells lines m :
  checkWinner_from cells lines = RMark m ↔
  ∃ k line, lines !! k = Some line ∧ line_full cells m line ∧
    ∀ j line' m', (j < k)%nat → lines !! j = Some line' → ¬ line_full cells m' line'.
Proof.
  induction lines as [|l lines IH]; simpl.
  - split.
    + destruct (forallb truthy cells); discriminate.
    + intros (k & line & H & _). rewrite lookup_nil in H. discriminate.
  - destruct (line_complete cells l) eqn:E.
    + apply line_complete_true in E as [m0 Hm0]. pose proof Hm0 as (Ha & _).
      rewrite Ha. split.
      * intros [= <-]. exists 0%nat, l. split; [reflexivity|]. split; [exact Hm0|]. lia.
      * intros (k & line & Hk & Hfull & Hfirst). destruct k as [|k].
        -- simpl in Hk. injection Hk as <-. f_equal. eapply line_full_inj; eauto.
        -- destruct (Hfirst 0%nat l m0); [lia | reflexivity | exact Hm0].
    + rewrite IH. split.
      * intros (k & line & Hk & Hfull & Hfirst). exists (S k), line.
        split; [exact Hk|]. split; [exact Hfull|].
        intros [|j] line' m' Hj Hl; simpl in Hl.
        -- injection Hl as <-. rewrite line_complete_false in E. apply E.
        -- eapply Hfirst; [|exact Hl]. lia.
      * intros (k & line & Hk & Hfull & Hfirst). destruct k as [|k].
        -- simpl in Hk. injection Hk as <-. rewrite line_complete_false in E.
           destruct (E m Hfull).
        -- exists k, line. split; [exact Hk|]. split; [exact Hfull|].
           intros j line' m' Hj Hl. apply (Hfirst (S j) line' m'); [lia | exact Hl].
Qed.

Lemma checkWinner_from_no_line cells lines :
  (∀ m, checkWinner_from cells lines ≠ RMark m) ↔ no_line cells lines.
Proof.
  unfold no_line. induction lines as [|l lines IH]; simpl.
  - split.
    + intros _ line m H. apply elem_of_nil in H. destruct H.
    + intros _ m. destruct (forallb truthy cells); discriminate.
  - destruct (line_complete cells l) eqn:E.
    + apply line_complete_true in E as [m0 Hm0]. pose proof Hm0 as (Ha & _).
      rewrite Ha. split.
      * intros H. destruct (H m0). reflexivity.
      * intros H. destruct (H l m0); [left | exact Hm0].
    + rewrite IH. rewrite line_complete_false in E. split.
      * intros H line m Hin. apply elem_of_cons in Hin as [-> | Hin]; [apply E | eauto].
      * intros H line m Hin. apply H. right. exact Hin.
Qed.

Lemma checkWinner_from_rest cells lines :
  no_line cells lines →
  checkWinner_from cells lines = if forallb truthy cells then RDraw else RNull.
Proof.
  unfold no_line. induction lines as [|l lines IH]; simpl; intros H; [reflexivity|].
  assert (line_complete cells l = false) as ->.
  { apply line_complete_false. intros m. apply H. left. }
  apply IH. intros line m Hin. apply H. right. exact Hin.
Qed.

Lemma checkWinner_draw cells :
  checkWinner cells = RDraw ↔ no_line cells patterns ∧ ∀ i, cells !! i ≠ Some None.
Proof.
  unfold checkWinner. rewrite <- forallb_truthy. split.
  - intros H. assert (Hn : no_line cells patterns).
    { apply checkWinner_from_no_line. intros m. rewrite H. discriminate. }
    split; [exact Hn|]. rewrite (checkWinner_from_rest _ _ Hn) in H.
    destruct (forallb truthy cells); [reflexivity | discriminate].
  - intros [Hn Hf]. rewrite (checkWinner_from_rest _ _ Hn), Hf. reflexivity.
Qed.

Lemma checkWinner_null cells :
  checkWinner cells = RNull ↔ no_line cells patterns ∧ ∃ i, cells !! i = Some None.
Proof.
  unfold checkWinner. rewrite <- not_all_truthy. split.
  - intros H. assert (Hn : no_line cells patterns).
    { apply checkWinner_from_no_line. intros m. rewrite H. discriminate. }
    split; [exact Hn|]. rewrite (checkWinner_from_rest _ _ Hn) in H.
    destruct (forallb truthy cells); [discriminate | reflexivity].
  - intros [Hn Hf]. rewrite (checkWinner_from_rest _ _ Hn), Hf. reflexivity.
Qed.

(** C1. For every board, [checkWinner] returns the win of a mark exactly
    when a win-line of the fixed list (rows, then columns, then diagonals)
    is filled by that mark and no earlier line of the list is filled; it
    returns draw exactly when no line is filled and no cell is empty, and
    ongoing ([null]) exactly when no line is filled and some cell is empty. *)
Theorem checkWinner_correct (cells : Board) :
  patterns = rows ++ columns ++ diagonals ∧
  (∀ m, checkWinner cells = RMark m ↔
     ∃ k line, patterns !! k = Some line ∧ line_full cells m line ∧
       ∀ j line' m', (j < k)%nat → patterns !! j = Some line' → ¬ line_full cells m' line') ∧
  (checkWinner cells = RDraw ↔
     no_line cells patterns ∧ ∀ i, cells !! i ≠ Some None) ∧
  (checkWinner cells = RNull ↔
     no_line cells patterns ∧ ∃ i, cells !! i = Some None).
Proof.
  split; [apply patterns_order|].
  split; [intros m; apply checkWinner_from_mark|].
  split; [apply checkWinner_draw | apply checkWinner_null].
Qed.

(** ** The candidate moves *)

Lemma emptyCells_elem board i :
  i ∈ emptyCells board ↔ ∃ n : nat, i = Z.of_nat n ∧ board !! n = Some None.
Proof.
  unfold emptyCells. rewrite list_elem_of_filter, list_elem_of_lookup. split.
  - intros [Hne [k Hk]]. rewrite list_lookup_imap in Hk.
    destruct (board !! k) as [val|] eqn:E; simpl in Hk; [|discriminate].
    injection Hk as Hk. destruct (decide (val = None)) as [->|]; [|congruence].
    exists k. split; [congruence | exact E].
  - intros (n & -> & Hn). split; [lia|]. exists n.
    rewrite list_lookup_imap, Hn. reflexivity.
Qed.

(** Every candidate is the index of a [null] cell of the array: the writes
    of the search are in range. *)
Lemma emptyCells_lookup board i :
  i ∈ emptyCells board → board !! Z.to_nat i = Some None.
Proof.
  intros (n & -> & Hn)%emptyCells_elem. rewrite Nat2Z.id. exact Hn.
Qed.

Lemma emptyCells_range board i :
  i ∈ emptyCells board → 0 ≤ i < Z.of_nat (length board).
Proof.
  intros (n & -> & Hn)%emptyCells_elem. apply lookup_lt_Some in Hn. lia.
Qed.

Lemma emptyCells_count_gen (h : nat → Z) (board : Board) :
  (∀ n, h n ≠ -1) →
  length (filter (λ i : Z, i ≠ -1)
            (imap (λ (i : nat) (val : Mark), if decide (val = None) then h i else -1) board))
  = length (filter (λ c : Mark, c = None) board).
Proof.
  revert h. induction board as [|c board IH]; intros h Hh; [reflexivity|].
  rewrite imap_cons. destruct c as [m|].
  - rewrite decide_False by discriminate.
    rewrite filter_cons_False by (intros H; apply H; reflexivity).
    rewrite (filter_cons_False _ (Some m)) by discriminate.
    apply (IH (h ∘ S)). intros n. apply Hh.
  - rewrite decide_True by reflexivity.
    rewrite filter_cons_True by apply Hh.
    rewrite (filter_cons_True _ None) by reflexivity.
    simpl. f_equal. apply (IH (h ∘ S)). intros n. apply Hh.
Qed.

Lemma empties_count board :
  empties board = length (filter (λ c : Mark, c = None) board).
Proof. unfold empties, emptyCells. apply emptyCells_count_gen. lia. Qed.

Lemma count_null_insert (board : Board) (n : nat) (m : mark) :
  board !! n = Some None →
  length (filter (λ c : Mark, c = None) board)
  = S (length (filter (λ c : Mark, c = None) (<[n := Some m]> board))).
Proof.
  revert n. induction board as [|c board IH]; intros n Hn.
  - rewrite lookup_nil in Hn. discriminate.
  - destruct n as [|n]; simpl in Hn.
    + injection Hn as ->.
      change (<[0%nat := Some m]> (None :: board)) with (Some m :: board).
      rewrite (filter_cons_True _ None) by reflexivity.
      rewrite (filter_cons_False _ (Some m)) by discriminate. reflexivity.
    + change (<[S n := Some m]> (c :: board)) with (c :: <[n := Some m]> board).
      destruct c as [m'|].
      * rewrite !(filter_cons_False _ (Some m')) by discriminate. apply IH, Hn.
      * rewrite !(filter_cons_True _ None) by reflexivity. simpl. f_equal. apply IH, Hn.
Qed.

(** Each recursive call is made on a board with one empty cell fewer. *)
Lemma empties_place board i m :
  i ∈ emptyCells board → empties board = S (empties (place board i m)).
Proof.
  intros Hi. rewrite !empties_count. unfold place.
  apply count_null_insert, emptyCells_lookup, Hi.
Qed.

(** Undoing a placement on a candidate cell gives the array back. *)
Lemma undo_place board i m :
  i ∈ emptyCells board → <[Z.to_nat i := None]> (place board i m) = board.
Proof.
  intros Hi. unfold place. rewrite list_insert_insert_eq.
  apply list_insert_id, emptyCells_lookup, Hi.
Qed.

Lemma emptyCells_nonempty board :
  checkWinner board = RNull → emptyCells board ≠ [].
Proof.
  intros (_ & n & Hn)%checkWinner_null E.
  assert (Z.of_nat n ∈ emptyCells board) as Hin by (apply emptyCells_elem; eauto).
  rewrite E in Hin. apply elem_of_nil in Hin. exact Hin.
Qed.

Lemma empties_le_length board : (empties board ≤ length board)%nat.
Proof. rewrite empties_count. apply length_filter. Qed.

(** ** Running the stateful search: the array is restored and the score is
    the one of the value-passing definitions *)

Section Loops.
Variable search : num → num → M num.
Variable f : Z → num → num → num.
Variable board : Board.
Variable m : mark.

Hypothesis search_run : ∀ i a b, i ∈ emptyCells board →
  search a b (place board i m) = Some (f i a b, place board i m).

Lemma max_loop_run moves : ∀ best alpha beta,
  m = O → moves ⊆ emptyCells board →
  max_loop search moves best alpha beta board
  = Some (max_pure f moves best alpha beta, board).
Proof.
  induction moves as [|i rest IH]; intros best alpha beta Hm Hsub; [reflexivity|].
  assert (Hi : i ∈ emptyCells board) by (apply Hsub; left).
  simpl. unfold bind at 1. unfold store at 1. unfold bind at 1.
  fold (place board i O). rewrite <- Hm, search_run by exact Hi.
  unfold bind at 1. unfold store at 1. rewrite undo_place by exact Hi.
  destruct (num_leb beta (Math_max alpha (f i alpha beta))); [reflexivity|].
  apply IH; [exact Hm|]. intros j Hj. apply Hsub. right. exact Hj.
Qed.

Lemma min_loop_run moves : ∀ best alpha beta,
  m = X → moves ⊆ emptyCells board →
  min_loop search moves best alpha beta board
  = Some (min_pure f moves best alpha beta, board).
Proof.
  induction moves as [|i rest IH]; intros best alpha beta Hm Hsub; [reflexivity|].
  assert (Hi : i ∈ emptyCells board) by (apply Hsub; left).
  simpl. unfold bind at 1. unfold store at 1. unfold bind at 1.
  fold (place board i X). rewrite <- Hm, search_run by exact Hi.
  unfold bind at 1. unfold store at 1. rewrite undo_place by exact Hi.
  destruct (num_leb (Math_min beta (f i alpha beta)) alpha); [reflexivity|].
  apply IH; [exact Hm|]. intros j Hj. apply Hsub. right. exact Hj.
Qed.
End Loops.

Section LoopsNoPrune.
Variable search : num → num → M num.
Variable g : Z → num.
Variable board : Board.
Variable m : mark.

Hypothesis search_run : ∀ i a b, i ∈ emptyCells board →
  search a b (place board i m) = Some (g i, place board i m).

Lemma max_loop_noprune_run moves : ∀ best alpha beta,
  m = O → moves ⊆ emptyCells board →
  max_loop_noprune search moves best alpha beta board
  = Some (max_all g moves best, board).
Proof.
  induction moves as [|i rest IH]; intros best alpha beta Hm Hsub; [reflexivity|].
  assert (Hi : i ∈ emptyCells board) by (apply Hsub; left).
  simpl. unfold bind at 1. unfold store at 1. unfold bind at 1.
  fold (place board i O). rewrite <- Hm, search_run by exact Hi.
  unfold bind at 1. unfold store at 1. rewrite undo_place by exact Hi.
  apply IH; [exact Hm|]. intros j Hj. apply Hsub. right. exact Hj.
Qed.

Lemma min_loop_noprune_run moves : ∀ best alpha beta,
  m = X → moves ⊆ emptyCells board →
  min_loop_noprune search moves best alpha beta board
  = Some (min_all g moves best, board).
Proof.
  induction moves as [|i rest IH]; intros best alpha beta Hm Hsub; [reflexivity|].
  assert (Hi : i ∈ emptyCells board) by (apply Hsub; left).
  simpl. unfold bind at 1. unfold store at 1. unfold bind at 1.
  fold (place board i X). rewrite <- Hm, search_run by exact Hi.
  unfold bind at 1. unfold store at 1. rewrite undo_place by exact Hi.
  apply IH; [exact Hm|]. intros j Hj. apply Hsub. right. exact Hj.
Qed.
End LoopsNoPrune.

(** With fuel above the number of empty cells, [minimax] returns the score
    [ab] and leaves the array as it found it. *)
Lemma minimax_run fuel : ∀ board depth isCPU alpha beta,
  (empties board < fuel)%nat →
  minimax fuel depth isCPU alpha beta board
  = Some (ab fuel board depth isCPU alpha beta, board).
Proof.
  induction fuel as [|fuel IH]; intros board depth isCPU alpha beta Hfuel; [lia|].
  simpl. unfold bind, get_board.
  destruct (checkWinner board) as [[|]| |] eqn:Hw; try reflexivity.
  assert (Hchild : ∀ m i, i ∈ emptyCells board → (empties (place board i m) < fuel)%nat).
  { intros m i Hi. pose proof (empties_place board i m Hi). lia. }
  destruct isCPU.
  - apply (max_loop_run _ (λ i, ab fuel (place board i O) (depth + 1) false) board O);
      [|reflexivity|reflexivity].
    intros i a b Hi. apply IH, Hchild, Hi.
  - apply (min_loop_run _ (λ i, ab fuel (place board i X) (depth + 1) true) board X);
      [|reflexivity|reflexivity].
    intros i a b Hi. apply IH, Hchild, Hi.
Qed.

Lemma minimax_noprune_run fuel : ∀ board depth isCPU alpha beta,
  (empties board < fuel)%nat →
  minimax_noprune fuel depth isCPU alpha beta board
  = Some (plain fuel board depth isCPU, board).
Proof.
  induction fuel as [|fuel IH]; intros board depth isCPU alpha beta Hfuel; [lia|].
  simpl. unfold bind, get_board.
  destruct (checkWinner board) as [[|]| |] eqn:Hw; try reflexivity.
  assert (Hchild : ∀ m i, i ∈ emptyCells board → (empties (place board i m) < fuel)%nat).
  { intros m i Hi. pose proof (empties_place board i m Hi). lia. }
  destruct isCPU.
  - apply (max_loop_noprune_run _ (λ i, plain fuel (place board i O) (depth + 1) false) board O);
      [|reflexivity|reflexivity].
    intros i a b Hi. apply IH, Hchild, Hi.
  - apply (min_loop_noprune_run _ (λ i, plain fuel (place board i X) (depth + 1) true) board X);
      [|reflexivity|reflexivity].
    intros i a b Hi. apply IH, Hchild, Hi.
Qed.

(** Any run of [minimax] that returns has restored the array, whatever the
    fuel: with too little fuel it does not return at all. *)
Lemma max_loop_frame search board moves : ∀ best alpha beta v board',
  (∀ i a b u bd, search a b (place board i O) = Some (u, bd) → bd = place board i O) →
  moves ⊆ emptyCells board →
  max_loop search moves best alpha beta board = Some (v, board') → board' = board.
Proof.
  induction moves as [|i rest IH]; intros best alpha beta v board' Hs Hsub; simpl.
  - intros [= _ <-]. reflexivity.
  - assert (Hi : i ∈ emptyCells board) by (apply Hsub; left).
    unfold bind at 1. unfold store at 1. unfold bind at 1. fold (place board i O).
    destruct (search alpha beta (place board i O)) as [[u bd]|] eqn:E; [|discriminate].
    apply Hs in E. subst bd.
    unfold bind at 1. unfold store at 1. rewrite undo_place by exact Hi.
    destruct (num_leb beta (Math_max alpha u)).
    + intros [= _ <-]. reflexivity.
    + apply IH; [exact Hs|]. intros j Hj. apply Hsub. right. exact Hj.
Qed.

Lemma min_loop_frame search board moves : ∀ best alpha beta v board',
  (∀ i a b u bd, search a b (place board i X) = Some (u, bd) → bd = place board i X) →
  moves ⊆ emptyCells board →
  min_loop search moves best alpha beta board = Some (v, board') → board' = board.
Proof.
  induction moves as [|i rest IH]; intros best alpha beta v board' Hs Hsub; simpl.
  - intros [= _ <-]. reflexivity.
  - assert (Hi : i ∈ emptyCells board) by (apply Hsub; left).
    unfold bind at 1. unfold store at 1. unfold bind at 1. fold (place board i X).
    destruct (search alpha beta (place board i X)) as [[u bd]|] eqn:E; [|discriminate].
    apply Hs in E. subst bd.
    unfold bind at 1. unfold store at 1. rewrite undo_place by exact Hi.
    destruct (num_leb (Math_min beta u) alpha).
    + intros [= _ <-]. reflexivity.
    + apply IH; [exact Hs|]. intros j Hj. apply Hsub. right. exact Hj.
Qed.

Lemma minimax_frame fuel : ∀ board depth isCPU alpha beta v board',
  minimax fuel depth isCPU alpha beta board = Some (v, board') → board' = board.
Proof.
  induction fuel as [|fuel IH]; intros board depth isCPU alpha beta v board'; [discriminate|].
  simpl. unfold bind, get_board.
  destruct (checkWinner board) as [[|]| |]; try (intros [= _ <-]; reflexivity).
  destruct isCPU.
  - apply max_loop_frame; [|reflexivity]. intros i a b u bd. apply IH.
  - apply min_loop_frame; [|reflexivity]. intros i a b u bd. apply IH.
Qed.

(** ** Fuel does not matter once it is enough *)

Lemma max_pure_ext f f' moves :
  (∀ i a b, i ∈ moves → f i a b = f' i a b) →
  ∀ best alpha beta, max_pure f moves best alpha beta = max_pure f' moves best alpha beta.
Proof.
  induction moves as [|i rest IH]; intros Hf best alpha beta; [reflexivity|].
  simpl. rewrite (Hf i alpha beta) by left.
  destruct (num_leb _ _); [reflexivity|]. apply IH.
  intros j a b Hj. apply Hf. right. exact Hj.
Qed.

Lemma min_pure_ext f f' moves :
  (∀ i a b, i ∈ moves → f i a b = f' i a b) →
  ∀ best alpha beta, min_pure f moves best alpha beta = min_pure f' moves best alpha beta.
Proof.
  induction moves as [|i rest IH]; intros Hf best alpha beta; [reflexivity|].
  simpl. rewrite (Hf i alpha beta) by left.
  destruct (num_leb _ _); [reflexivity|]. apply IH.
  intros j a b Hj. apply Hf. right. exact Hj.
Qed.

Lemma ab_fuel fuel : ∀ fuel' board depth isCPU alpha beta,
  (empties board < fuel)%nat → (empties board < fuel')%nat →
  ab fuel board depth isCPU alpha beta = ab fuel' board depth isCPU alpha beta.
Proof.
  induction fuel as [|fuel IH]; intros fuel' board depth isCPU alpha beta H H'; [lia|].
  destruct fuel' as [|fuel']; [lia|]. simpl.
  destruct (checkWinner board) as [[|]| |]; try reflexivity.
  assert (Hchild : ∀ m i, i ∈ emptyCells board →
            (empties (place board i m) < fuel)%nat ∧ (empties (place board i m) < fuel')%nat).
  { intros m i Hi. pose proof (empties_place board i m Hi). lia. }
  destruct isCPU.
  - apply max_pure_ext. intros i a b Hi. apply IH; apply (Hchild O i Hi).
  - apply min_pure_ext. intros i a b Hi. apply IH; apply (Hchild X i Hi).
Qed.

(** ** Pruning does not change the score *)

Lemma ab_rel_refl alpha beta v : ab_rel alpha beta v v.
Proof. unfold ab_rel. auto. Qed.

Lemma ab_plain fuel : ∀ board depth isCPU alpha beta,
  (empties board < fuel)%nat → num_lt alpha beta →
  ab_rel alpha beta (plain fuel board depth isCPU) (ab fuel board depth isCPU alpha beta).
Proof.
  induction fuel as [|fuel IH]; intros board depth isCPU alpha beta Hfuel Hlt; [lia|].
  simpl. destruct (checkWinner board) as [[|]| |]; try apply ab_rel_refl.
  assert (Hchild : ∀ m i, i ∈ emptyCells board → (empties (place board i m) < fuel)%nat).
  { intros m i Hi. pose proof (empties_place board i m Hi). lia. }
  destruct isCPU.
  - apply max_pure_sound.
    + intros i a b Hi Hab. apply IH; [apply Hchild, Hi | exact Hab].
    + exact Hlt.
    + clear. num_solve.
    + intros _. reflexivity.
    + intros H. exfalso. clear -H. num_solve.
  - apply min_pure_sound.
    + intros i a b Hi Hab. apply IH; [apply Hchild, Hi | exact Hab].
    + exact Hlt.
    + clear. num_solve.
    + intros _. clear. num_solve.
    + intros H. exfalso. clear -H. num_solve.
Qed.

Lemma ab_full_window fuel board depth isCPU :
  (empties board < fuel)%nat →
  ab fuel board depth isCPU NegInf PosInf = plain fuel board depth isCPU.
Proof. intros H. apply ab_rel_full, ab_plain; [exact H | reflexivity]. Qed.

(** C2. For every board, depth and flag, [minimax] called with the bounds
    -Infinity and +Infinity returns the same score, and the same array, as
    the recursion without the cutoff; both return. *)
Theorem pruning_preserves_score (board : Board) (depth : Z) (isCPU : bool) (fuel : nat) :
  (empties board < fuel)%nat →
  minimax fuel depth isCPU NegInf PosInf board
  = minimax_noprune fuel depth isCPU NegInf PosInf board ∧
  ∃ v, minimax fuel depth isCPU NegInf PosInf board = Some (v, board).
Proof.
  intros H. rewrite minimax_run, minimax_noprune_run by exact H.
  rewrite ab_full_window by exact H. eauto.
Qed.

Lemma pruning_preserves_score_witness :
  minimax 10 0 true NegInf PosInf emptyBoard
  = minimax_noprune 10 0 true NegInf PosInf emptyBoard ∧
  ∃ v, minimax 10 0 true NegInf PosInf emptyBoard = Some (v, emptyBoard).
Proof. apply (pruning_preserves_score emptyBoard 0 true 10). vm_compute. lia. Defined.

(** ** The move selector *)

Lemma best_loop_run fuel board candidates : ∀ topScore bestMove,
  candidates ⊆ emptyCells board → (empties board ≤ fuel)%nat →
  best_loop fuel candidates topScore bestMove board
  = Some (best_pure (λ i, ab fuel (place board i O) 0 false NegInf PosInf)
                    candidates topScore bestMove, board).
Proof.
  induction candidates as [|i rest IH]; intros top best Hsub Hfuel; [reflexivity|].
  assert (Hi : i ∈ emptyCells board) by (apply Hsub; left).
  simpl. unfold bind at 1. unfold store at 1. unfold bind at 1. fold (place board i O).
  rewrite minimax_run by (pose proof (empties_place board i O Hi); lia).
  unfold bind at 1. unfold store at 1. rewrite undo_place by exact Hi.
  assert (Hrest : rest ⊆ emptyCells board) by (intros j Hj; apply Hsub; right; exact Hj).
  destruct (num_gtb _ _); apply IH; auto.
Qed.

Lemma getBestMove_run fuel board :
  (empties board ≤ fuel)%nat →
  getBestMove fuel board = Some (bestMove_of fuel board, board).
Proof.
  intros H. unfold getBestMove, bind, get_board.
  apply best_loop_run; [reflexivity | exact H].
Qed.

Lemma best_loop_frame fuel board candidates : ∀ topScore bestMove r board',
  candidates ⊆ emptyCells board →
  best_loop fuel candidates topScore bestMove board = Some (r, board') → board' = board.
Proof.
  induction candidates as [|i rest IH]; intros top best r board' Hsub; simpl.
  - intros [= _ <-]. reflexivity.
  - assert (Hi : i ∈ emptyCells board) by (apply Hsub; left).
    unfold bind at 1. unfold store at 1. unfold bind at 1. fold (place board i O).
    destruct (minimax fuel 0 false NegInf PosInf (place board i O)) as [[u bd]|] eqn:E;
      [|discriminate].
    apply minimax_frame in E. subst bd.
    unfold bind at 1. unfold store at 1. rewrite undo_place by exact Hi.
    assert (Hrest : rest ⊆ emptyCells board) by (intros j Hj; apply Hsub; right; exact Hj).
    destruct (num_gtb _ _); apply IH; exact Hrest.
Qed.

Lemma getBestMove_frame fuel board r board' :
  getBestMove fuel board = Some (r, board') → board' = board.
Proof.
  unfold getBestMove, bind, get_board. apply best_loop_frame. reflexivity.
Qed.

Lemma best_pure_ext score score' candidates :
  (∀ i, i ∈ candidates → score i = score' i) →
  ∀ topScore bestMove,
    best_pure score candidates topScore bestMove
    = best_pure score' candidates topScore bestMove.
Proof.
  induction candidates as [|i rest IH]; intros Hsc top best; [reflexivity|].
  simpl. rewrite (Hsc i) by left.
  destruct (num_gtb _ _); apply IH; intros j Hj; apply Hsc; right; exact Hj.
Qed.

Lemma bestMove_of_fuel fuel fuel' board :
  (empties board ≤ fuel)%nat → (empties board ≤ fuel')%nat →
  bestMove_of fuel board = bestMove_of fuel' board.
Proof.
  intros H H'. unfold bestMove_of. apply best_pure_ext.
  intros i Hi. pose proof (empties_place board i O Hi). apply ab_fuel; lia.
Qed.

(** The loop of [getBestMove] returns its initial [bestMove] when no score
    exceeds the initial [topScore], and otherwise a candidate of greatest
    score. *)
Lemma best_pure_spec score candidates : ∀ topScore bestMove,
  let r := best_pure score candidates topScore bestMove in
  (r = bestMove ∧ ∀ j, j ∈ candidates → num_le (score j) topScore) ∨
  (r ∈ candidates ∧ num_lt topScore (score r) ∧
   ∀ j, j ∈ candidates → num_le (score j) (score r)).
Proof.
  induction candidates as [|i rest IH]; intros top best; simpl.
  - left. split; [reflexivity|]. intros j Hj. apply elem_of_nil in Hj. destruct Hj.
  - destruct (num_gtb (score i) top) eqn:E.
    + apply num_gtb_true in E. right.
      destruct (IH (score i) i) as [[-> Hall] | (Hin & Hlt & Hall)].
      * split; [left|]. split; [exact E|].
        intros j [-> | Hj]%elem_of_cons; [apply num_le_refl | apply Hall, Hj].
      * split; [right; exact Hin|]. split.
        -- eapply num_lt_le_trans; [exact E | apply num_lt_le, Hlt].
        -- intros j [-> | Hj]%elem_of_cons; [apply num_lt_le, Hlt | apply Hall, Hj].
    + assert (Hi : num_le (score i) top).
      { unfold num_gtb in E. unfold num_le. destruct (num_leb (score i) top); [reflexivity|discriminate]. }
      destruct (IH top best) as [[-> Hall] | (Hin & Hlt & Hall)].
      * left. split; [reflexivity|].
        intros j [-> | Hj]%elem_of_cons; [exact Hi | apply Hall, Hj].
      * right. split; [right; exact Hin|]. split; [exact Hlt|].
        intros j [-> | Hj]%elem_of_cons; [|apply Hall, Hj].
        apply num_lt_le. eapply num_le_lt_trans; [exact Hi | exact Hlt].
Qed.

(** ** Scores are finite and bounded *)

Lemma max_all_pred (P : Z → Prop) g moves :
  (∀ i, i ∈ moves → ∃ z, g i = Fin z ∧ P z) →
  ∀ best, (best = NegInf ∧ moves ≠ [] ∨ ∃ z, best = Fin z ∧ P z) →
  ∃ z, max_all g moves best = Fin z ∧ P z.
Proof.
  induction moves as [|i rest IH]; intros Hg best Hbest; simpl.
  - destruct Hbest as [[_ H] | H]; [destruct H; reflexivity | exact H].
  - apply IH; [intros j Hj; apply Hg; right; exact Hj|]. right.
    destruct (Hg i) as (zi & -> & Hzi); [left|].
    destruct Hbest as [[-> _] | (z & -> & Hz)]; [exists zi; auto|].
    unfold Math_max, num_leb. destruct (z <=? zi); eauto.
Qed.

Lemma min_all_pred (P : Z → Prop) g moves :
  (∀ i, i ∈ moves → ∃ z, g i = Fin z ∧ P z) →
  ∀ best, (best = PosInf ∧ moves ≠ [] ∨ ∃ z, best = Fin z ∧ P z) →
  ∃ z, min_all g moves best = Fin z ∧ P z.
Proof.
  induction moves as [|i rest IH]; intros Hg best Hbest; simpl.
  - destruct Hbest as [[_ H] | H]; [destruct H; reflexivity | exact H].
  - apply IH; [intros j Hj; apply Hg; right; exact Hj|]. right.
    destruct (Hg i) as (zi & -> & Hzi); [left|].
    destruct Hbest as [[-> _] | (z & -> & Hz)]; [exists zi; auto|].
    unfold Math_min, num_leb. destruct (z <=? zi); eauto.
Qed.

Lemma plain_finite fuel : ∀ board depth isCPU,
  (empties board < fuel)%nat → ∃ z, plain fuel board depth isCPU = Fin z.
Proof.
  induction fuel as [|fuel IH]; intros board depth isCPU Hfuel; [lia|].
  simpl. destruct (checkWinner board) as [[|]| |] eqn:Hw; eauto.
  assert (Hchild : ∀ m i, i ∈ emptyCells board → (empties (place board i m) < fuel)%nat).
  { intros m i Hi. pose proof (empties_place board i m Hi). lia. }
  apply emptyCells_nonempty in Hw.
  destruct isCPU.
  - destruct (max_all_pred (λ _, True)
                (λ i, plain fuel (place board i O) (depth + 1) false)
                (emptyCells board)) with (best := NegInf) as (z & Hz & _); eauto.
    intros i Hi. destruct (IH (place board i O) (depth + 1) false) as [z Hz]; eauto.
  - destruct (min_all_pred (λ _, True)
                (λ i, plain fuel (place board i X) (depth + 1) true)
                (emptyCells board)) with (best := PosInf) as (z & Hz & _); eauto.
    intros i Hi. destruct (IH (place board i X) (depth + 1) true) as [z Hz]; eauto.
Qed.

(** On a board whose empty cells number at most [10 - depth], the score lies
    between [depth - 10] and [10 - depth]. *)
Lemma plain_bounds fuel : ∀ board depth isCPU,
  (empties board < fuel)%nat → 0 ≤ depth → depth + Z.of_nat (empties board) ≤ 10 →
  ∃ z, plain fuel board depth isCPU = Fin z ∧ depth - 10 ≤ z ≤ 10 - depth.
Proof.
  induction fuel as [|fuel IH]; intros board depth isCPU Hfuel Hd He; [lia|].
  simpl. destruct (checkWinner board) as [[|]| |] eqn:Hw;
    try (eexists; split; [reflexivity | lia]).
  assert (Hchild : ∀ m i, i ∈ emptyCells board →
            ∃ z, plain fuel (place board i m) (depth + 1) (match m with O => false | X => true end)
                 = Fin z ∧ depth - 10 ≤ z ≤ 10 - depth).
  { intros m i Hi. pose proof (empties_place board i m Hi).
    destruct (IH (place board i m) (depth + 1) (match m with O => false | X => true end))
      as (z & Hz & Hb); [lia | lia | lia |]. exists z. split; [exact Hz | lia]. }
  apply emptyCells_nonempty in Hw.
  destruct isCPU.
  - apply (max_all_pred (λ z, depth - 10 ≤ z ≤ 10 - depth)); [|left; auto].
    intros i Hi. apply (Hchild O i Hi).
  - apply (min_all_pred (λ z, depth - 10 ≤ z ≤ 10 - depth)); [|left; auto].
    intros i Hi. apply (Hchild X i Hi).
Qed.

(** ** The array after the search, and termination *)

(** C5. For every board, depth, flag and bounds, [minimax] and
    [getBestMove] return (given fuel above the number of empty cells) with
    the array holding the cells it held before the call; and whatever the
    fuel, a call that returns has restored the array, also when the loop was
    left through the cutoff. *)
Theorem search_restores_board (board : Board) (depth : Z) (isCPU : bool)
    (alpha beta : num) (fuel : nat) :
  (empties board < fuel)%nat →
  (∃ v, minimax fuel depth isCPU alpha beta board = Some (v, board)) ∧
  (∃ i, getBestMove fuel board = Some (i, board)) ∧
  (∀ n v board', minimax n depth isCPU alpha beta board = Some (v, board') → board' = board) ∧
  (∀ n i board', getBestMove n board = Some (i, board') → board' = board).
Proof.
  intros H. split; [|split; [|split]].
  - rewrite minimax_run by exact H. eauto.
  - rewrite getBestMove_run by lia. eauto.
  - intros n v board'. apply minimax_frame.
  - intros n i board'. apply getBestMove_frame.
Qed.

Lemma search_restores_board_witness :
  (∃ v, minimax 6 2 true (Fin 3) (Fin (-1)) scenario4 = Some (v, scenario4)) ∧
  (∃ i, getBestMove 6 scenario4 = Some (i, scenario4)) ∧
  (∀ n v board', minimax n 2 true (Fin 3) (Fin (-1)) scenario4 = Some (v, board') →
     board' = scenario4) ∧
  (∀ n i board', getBestMove n scenario4 = Some (i, board') → board' = scenario4).
Proof. apply (search_restores_board scenario4 2 true (Fin 3) (Fin (-1)) 6). vm_compute. lia. Defined.

(** C10. [minimax] terminates on every input: each recursive call is made
    on a board with one empty cell fewer, so any fuel above the number of
    empty cells (for a 9-cell board, fuel 10) makes the model return, and
    the result does not depend on the fuel. *)
Theorem minimax_terminates (board : Board) (depth : Z) (isCPU : bool) (alpha beta : num) :
  (∀ i m, i ∈ emptyCells board → S (empties (place board i m)) = empties board) ∧
  (∀ fuel, (empties board < fuel)%nat →
     ∃ v, minimax fuel depth isCPU alpha beta board = Some (v, board) ∧
          minimax (S (empties board)) depth isCPU alpha beta board = Some (v, board)) ∧
  (∀ fuel, (length board < fuel)%nat →
     ∃ v, minimax fuel depth isCPU alpha beta board = Some (v, board)).
Proof.
  split; [|split].
  - intros i m Hi. symmetry. apply empties_place, Hi.
  - intros fuel H. exists (ab fuel board depth isCPU alpha beta). split.
    + apply minimax_run, H.
    + rewrite minimax_run by lia. do 2 f_equal. apply ab_fuel; lia.
  - intros fuel H. pose proof (empties_le_length board).
    rewrite minimax_run by lia. eauto.
Qed.

Lemma minimax_terminates_witness :
  ∃ v, minimax 10 0 false (Fin 5) (Fin 5) emptyBoard = Some (v, emptyBoard).
Proof.
  destruct (minimax_terminates emptyBoard 0 false (Fin 5) (Fin 5)) as (_ & _ & H).
  apply (H 10%nat). vm_compute. lia.
Defined.

(** C9. [getBestMove] is deterministic: on equal boards it returns the same
    index, whatever the (sufficient) fuel, and a second call on the same
    array, after the first has returned, returns that index again. *)
Theorem getBestMove_deterministic (board1 board2 : Board) (fuel1 fuel2 : nat) :
  board1 = board2 →
  (empties board1 ≤ fuel1)%nat → (empties board2 ≤ fuel2)%nat →
  ∃ i, getBestMove fuel1 board1 = Some (i, board1) ∧
       getBestMove fuel2 board2 = Some (i, board2) ∧
       (first <- getBestMove fuel1 ;; second <- getBestMove fuel2 ;; ret (first, second))
         board1 = Some ((i, i), board1).
Proof.
  intros <- H1 H2. exists (bestMove_of fuel1 board1).
  rewrite (bestMove_of_fuel fuel1 fuel2) at 2 4 by assumption.
  split; [apply getBestMove_run, H1|]. split; [apply getBestMove_run, H2|].
  unfold bind. rewrite (getBestMove_run fuel1) by exact H1.
  rewrite (getBestMove_run fuel2) by exact H2.
  rewrite (bestMove_of_fuel fuel1 fuel2) by assumption. reflexivity.
Qed.

Lemma getBestMove_deterministic_witness :
  ∃ i, getBestMove 5 scenario4 = Some (i, scenario4) ∧
       getBestMove 9 scenario4 = Some (i, scenario4) ∧
       (first <- getBestMove 5 ;; second <- getBestMove 9 ;; ret (first, second))
         scenario4 = Some ((i, i), scenario4).
Proof.
  apply (getBestMove_deterministic scenario4 scenario4 5 9);
    [reflexivity | vm_compute; lia | vm_compute; lia].
Defined.

(** ** The index returned by [getBestMove] *)

Lemma score_of_plain fuel board i :
  (empties board ≤ fuel)%nat → i ∈ emptyCells board →
  score_of fuel board i = plain fuel (place board i O) 0 false.
Proof.
  intros H Hi. unfold score_of. apply ab_full_window.
  pose proof (empties_place board i O Hi). lia.
Qed.

Lemma score_of_finite fuel board i :
  (empties board ≤ fuel)%nat → i ∈ emptyCells board →
  ∃ z, score_of fuel board i = Fin z.
Proof.
  intros H Hi. rewrite score_of_plain by assumption. apply plain_finite.
  pose proof (empties_place board i O Hi). lia.
Qed.

(** With a candidate at hand, the index returned is a candidate of greatest
    score. *)
Lemma bestMove_of_greatest fuel board :
  (empties board ≤ fuel)%nat → emptyCells board ≠ [] →
  bestMove_of fuel board ∈ emptyCells board ∧
  ∀ j, j ∈ emptyCells board →
       num_le (score_of fuel board j) (score_of fuel board (bestMove_of fuel board)).
Proof.
  intros H Hne. unfold bestMove_of.
  destruct (best_pure_spec (score_of fuel board) (emptyCells board) NegInf 0)
    as [[_ Hall] | (Hin & _ & Hall)]; [exfalso | split; assumption].
  destruct (emptyCells board) as [|j rest] eqn:E; [congruence|].
  assert (Hj : j ∈ emptyCells board) by (rewrite E; left).
  destruct (score_of_finite fuel board j H Hj) as [z Hz].
  assert (Hj' : j ∈ j :: rest) by left.
  specialize (Hall j Hj'). rewrite Hz in Hall. discriminate.
Qed.

Lemma emptyCells_nil board :
  (∀ n, board !! n ≠ Some None) → emptyCells board = [].
Proof.
  intros H. apply elem_of_nil_inv. intros i (n & _ & Hn)%emptyCells_elem.
  exact (H n Hn).
Qed.

Lemma emptyCells_cons board n :
  board !! n = Some None → emptyCells board ≠ [].
Proof.
  intros Hn E. assert (Z.of_nat n ∈ emptyCells board) as Hin
    by (apply emptyCells_elem; eauto).
  rewrite E in Hin. apply elem_of_nil in Hin. exact Hin.
Qed.

(** C8. For every 9-cell board with at least one empty cell, [getBestMove]
    returns an index between 0 and 8 whose cell on the input board is
    empty. *)
Theorem getBestMove_returns_empty_cell (board : Board) (fuel : nat) :
  length board = 9%nat →
  (∃ n, board !! n = Some None) →
  (empties board ≤ fuel)%nat →
  ∃ i, getBestMove fuel board = Some (i, board) ∧
       0 ≤ i ≤ 8 ∧ board !! Z.to_nat i = Some None.
Proof.
  intros Hlen [n Hn] H. exists (bestMove_of fuel board).
  split; [apply getBestMove_run, H|].
  destruct (bestMove_of_greatest fuel board H (emptyCells_cons _ _ Hn)) as [Hin _].
  split; [|apply emptyCells_lookup, Hin].
  apply emptyCells_range in Hin. lia.
Qed.

Lemma getBestMove_returns_empty_cell_witness :
  ∃ i, getBestMove 9 emptyBoard = Some (i, emptyBoard) ∧
       0 ≤ i ≤ 8 ∧ emptyBoard !! Z.to_nat i = Some None.
Proof.
  apply (getBestMove_returns_empty_cell emptyBoard 9);
    [reflexivity | exists 0%nat; reflexivity | vm_compute; lia].
Defined.

(** C6, as the code has it.  [getBestMove] has no failure path.  On a board
    without an empty cell it returns 0, the initial value of [bestMove]; on
    a board that the evaluator reports as ended but that still has an empty
    cell, it returns the index of an empty cell.  The array is left as it
    was in both cases. *)
Theorem getBestMove_without_legal_move (board : Board) (fuel : nat) :
  checkWinner board ≠ RNull →
  (empties board ≤ fuel)%nat →
  ((∀ n, board !! n ≠ Some None) → getBestMove fuel board = Some (0, board)) ∧
  ((∃ n, board !! n = Some None) →
     ∃ i, getBestMove fuel board = Some (i, board) ∧ board !! Z.to_nat i = Some None).
Proof.
  intros _ H. split.
  - intros Hfull. rewrite getBestMove_run by exact H.
    unfold bestMove_of. rewrite (emptyCells_nil _ Hfull). reflexivity.
  - intros [n Hn]. exists (bestMove_of fuel board).
    split; [apply getBestMove_run, H|].
    destruct (bestMove_of_greatest fuel board H (emptyCells_cons _ _ Hn)) as [Hin _].
    apply emptyCells_lookup, Hin.
Qed.

Lemma getBestMove_without_legal_move_witness :
  ((∀ n, fullBoard !! n ≠ Some None) → getBestMove 0 fullBoard = Some (0, fullBoard)) ∧
  ((∃ n, fullBoard !! n = Some None) →
     ∃ i, getBestMove 0 fullBoard = Some (i, fullBoard) ∧
          fullBoard !! Z.to_nat i = Some None).
Proof.
  apply (getBestMove_without_legal_move fullBoard 0); [discriminate | vm_compute; lia].
Defined.

(** C6, as stated, fails: on the full board [fullBoard] (a draw) the call
    returns index 0, whose cell holds ['X'], and on [wonBoard] (already won
    by ['X']) it returns index 5; neither call reports an error. *)
Lemma getBestMove_full_board_returns_zero :
  checkWinner fullBoard = RDraw ∧
  getBestMove 9 fullBoard = Some (0, fullBoard) ∧
  fullBoard !! Z.to_nat 0 = Some (Some X) ∧
  checkWinner wonBoard = RMark X ∧
  getBestMove 9 wonBoard = Some (5, wonBoard).
Proof. repeat split; vm_compute; reflexivity. Qed.

(** C7. From the all-empty board, with both sides taking every move from
    [getBestMove] as the searching player, the game ends in a draw, whoever
    moves first, and no win-line is filled on the final board.  The same
    holds when ['X'] moves first and passes the board as it is. *)
Theorem selfplay_ends_in_draw :
  (∀ first, ∃ final,
     selfplay as_searcher 9 first emptyBoard = Some final ∧
     checkWinner final = RDraw ∧ no_line final patterns) ∧
  (∃ final,
     selfplay as_is 9 X emptyBoard = Some final ∧
     checkWinner final = RDraw ∧ no_line final patterns).
Proof.
  assert (Hd : ∀ final, checkWinner final = RDraw →
                 checkWinner final = RDraw ∧ no_line final patterns).
  { intros final H. split; [exact H|]. apply checkWinner_draw in H. apply H. }
  split.
  - intros [|].
    + exists [Some X; Some X; Some O; Some O; Some O; Some X; Some X; Some O; Some X].
      split; [vm_compute; reflexivity | apply Hd; vm_compute; reflexivity].
    + exists [Some O; Some O; Some X; Some X; Some X; Some O; Some O; Some X; Some O].
      split; [vm_compute; reflexivity | apply Hd; vm_compute; reflexivity].
  - exists [Some X; Some X; Some O; Some O; Some O; Some X; Some X; Some O; Some X].
    split; [vm_compute; reflexivity | apply Hd; vm_compute; reflexivity].
Qed.


(** ** One-move wins *)

Lemma on_lineb_spec i line : on_lineb i line = true ↔ on_line i line.
Proof.
  unfold on_lineb, on_line. rewrite !orb_true_iff, !Nat.eqb_eq. tauto.
Qed.

Lemma line_fullb_spec cells m line : line_fullb cells m line = true ↔ line_full cells m line.
Proof.
  unfold line_fullb, line_full. rewrite !andb_true_iff, !bool_decide_eq_true. tauto.
Qed.

Lemma completesb_spec board m i : completesb board m i = true ↔ completes board m i.
Proof.
  unfold completesb, completes.
  rewrite andb_true_iff, bool_decide_eq_true, existsb_exists.
  split; intros [Hi (line & H1 & H2)]; (split; [exact Hi|]); exists line.
  - apply andb_true_iff in H2 as [H2 H3].
    rewrite on_lineb_spec in H2. rewrite line_fullb_spec in H3.
    split; [apply list_elem_of_In, H1 | auto].
  - destruct H2 as [H2 H3]. split; [apply list_elem_of_In, H1|].
    apply andb_true_iff. rewrite on_lineb_spec, line_fullb_spec. auto.
Qed.

Lemma on_line_dec i line : on_line i line ∨ ¬ on_line i line.
Proof.
  destruct (on_lineb i line) eqn:E.
  - left. apply on_lineb_spec, E.
  - right. intros H. apply on_lineb_spec in H. congruence.
Qed.

(** A line that does not pass through the written cell is unchanged. *)
Lemma line_full_insert_off (cells : Board) i v m line :
  ¬ on_line i line → line_full (<[i := v]> cells) m line ↔ line_full cells m line.
Proof.
  intros Hoff. unfold line_full, on_line in *.
  rewrite !list_lookup_insert_ne by tauto. tauto.
Qed.

(** A line through the written cell can only be filled by the mark written. *)
Lemma line_full_insert_on (cells : Board) i m' m line :
  (i < length cells)%nat → on_line i line →
  line_full (<[i := Some m']> cells) m line → m = m'.
Proof.
  intros Hi Hon (H1 & H2 & H3).
  destruct Hon as [-> | [-> | ->]].
  - rewrite list_lookup_insert_eq in H1 by exact Hi. congruence.
  - rewrite list_lookup_insert_eq in H2 by exact Hi. congruence.
  - rewrite list_lookup_insert_eq in H3 by exact Hi. congruence.
Qed.

Lemma checkWinner_mark_line cells m :
  checkWinner cells = RMark m → ∃ line, line ∈ patterns ∧ line_full cells m line.
Proof.
  intros (k & line & Hk & Hfull & _)%checkWinner_from_mark.
  exists line. split; [eapply list_elem_of_lookup_2, Hk | exact Hfull].
Qed.

Lemma checkWinner_some_mark cells m line :
  line ∈ patterns → line_full cells m line → ∃ m', checkWinner cells = RMark m'.
Proof.
  intros Hin Hfull. destruct (checkWinner cells) as [m'| |] eqn:E; [eauto| |].
  - apply checkWinner_draw in E as [Hno _]. destruct (Hno line m Hin Hfull).
  - apply checkWinner_null in E as [Hno _]. destruct (Hno line m Hin Hfull).
Qed.

(** On a board without a filled line, the evaluator reports a win after a
    placement exactly when the placement completes a line, and the win is
    the placed mark's. *)
Lemma place_winner board n m m' :
  no_line board patterns → board !! n = Some None →
  checkWinner (<[n := Some m]> board) = RMark m' → m' = m ∧ completes board m n.
Proof.
  intros Hno Hn (line & Hin & Hfull)%checkWinner_mark_line.
  destruct (on_line_dec n line) as [Hon | Hoff].
  - assert (m' = m) as ->.
    { eapply line_full_insert_on; [|exact Hon|exact Hfull]. eapply lookup_lt_Some, Hn. }
    split; [reflexivity|]. split; [exact Hn|]. eauto.
  - apply line_full_insert_off in Hfull; [|exact Hoff]. destruct (Hno line m' Hin Hfull).
Qed.

Lemma completes_winner board n m :
  no_line board patterns → completes board m n →
  checkWinner (<[n := Some m]> board) = RMark m.
Proof.
  intros Hno [Hn (line & Hin & Hon & Hfull)].
  destruct (checkWinner_some_mark _ _ _ Hin Hfull) as [m' E].
  rewrite E. f_equal. eapply place_winner; eauto.
Qed.

Lemma place_of_nat board n m : place board (Z.of_nat n) m = <[n := Some m]> board.
Proof. unfold place. rewrite Nat2Z.id. reflexivity. Qed.

(** ** Scores near the top and the bottom of the scale *)

Lemma min_all_le_elem g moves i : i ∈ moves →
  ∀ best, num_le (min_all g moves best) (g i).
Proof.
  induction moves as [|j rest IH]; intros Hi best.
  - apply elem_of_nil in Hi. destruct Hi.
  - simpl. apply elem_of_cons in Hi as [-> | Hi]; [|apply IH, Hi].
    eapply num_le_trans; [apply min_all_le | apply Math_min_le_r].
Qed.

(** A position that is not already won by ['X'] is worth more than a loss
    at this depth, and one not won by ['O'] less than a win at this depth. *)
Lemma plain_no_win fuel board depth isCPU :
  (empties board < fuel)%nat → 0 ≤ depth ≤ 9 → depth + Z.of_nat (empties board) ≤ 10 →
  ∃ z, plain fuel board depth isCPU = Fin z ∧
       (checkWinner board ≠ RMark X → depth - 9 ≤ z) ∧
       (checkWinner board ≠ RMark O → z ≤ 9 - depth).
Proof.
  intros Hfuel Hd He. destruct fuel as [|fuel]; [lia|].
  simpl. destruct (checkWinner board) as [[|]| |] eqn:Hw.
  - eexists. split; [reflexivity|]. split; [congruence | lia].
  - eexists. split; [reflexivity|]. split; [lia | congruence].
  - eexists. split; [reflexivity|]. lia.
  - assert (Hchild : ∀ m i, i ∈ emptyCells board →
              ∃ z, plain fuel (place board i m) (depth + 1)
                     (match m with O => false | X => true end) = Fin z ∧
                   depth - 9 ≤ z ≤ 9 - depth).
    { intros m i Hi. pose proof (empties_place board i m Hi).
      destruct (plain_bounds fuel (place board i m) (depth + 1)
                  (match m with O => false | X => true end))
        as (z & Hz & Hb); [lia | lia | lia |]. exists z. split; [exact Hz | lia]. }
    apply emptyCells_nonempty in Hw.
    destruct isCPU.
    + destruct (max_all_pred (λ z, depth - 9 ≤ z ≤ 9 - depth)
                  (λ i, plain fuel (place board i O) (depth + 1) false)
                  (emptyCells board)) with (best := NegInf) as (z & Hz & Hb);
        [intros i Hi; apply (Hchild O i Hi) | left; auto |].
      exists z. split; [exact Hz | lia].
    + destruct (min_all_pred (λ z, depth - 9 ≤ z ≤ 9 - depth)
                  (λ i, plain fuel (place board i X) (depth + 1) true)
                  (emptyCells board)) with (best := PosInf) as (z & Hz & Hb);
        [intros i Hi; apply (Hchild X i Hi) | left; auto |].
      exists z. split; [exact Hz | lia].
Qed.

Lemma plain_win fuel board depth isCPU :
  (empties board < fuel)%nat → checkWinner board = RMark O →
  plain fuel board depth isCPU = Fin (10 - depth).
Proof. intros Hfuel Hw. destruct fuel; [lia|]. simpl. rewrite Hw. reflexivity. Qed.

Lemma plain_loss fuel board depth isCPU :
  (empties board < fuel)%nat → checkWinner board = RMark X →
  plain fuel board depth isCPU = Fin (depth - 10).
Proof. intros Hfuel Hw. destruct fuel; [lia|]. simpl. rewrite Hw. reflexivity. Qed.

Lemma line_full_through cells m line n :
  on_line n line → line_full cells m line → cells !! n = Some (Some m).
Proof. intros [-> | [-> | ->]] (H1 & H2 & H3); assumption. Qed.

(** Writing the other mark into another empty cell neither creates nor
    removes a one-move win at [k]. *)
Lemma completes_place_other board n k m m' :
  m' ≠ m → board !! n = Some None → n ≠ k →
  completes (<[n := Some m']> board) m k ↔ completes board m k.
Proof.
  intros Hm Hn Hnk. pose proof (lookup_lt_Some _ _ _ Hn) as Hlen.
  unfold completes. rewrite list_lookup_insert_ne by exact Hnk.
  split; intros (Hk & line & Hin & Hon & Hfull); (split; [exact Hk|]);
    exists line; (split; [exact Hin|]); (split; [exact Hon|]).
  - rewrite list_insert_insert_ne in Hfull by lia.
    destruct (on_line_dec n line) as [Hthrough | Hoff].
    + apply (line_full_through _ _ _ _ Hthrough) in Hfull.
      rewrite list_lookup_insert_eq in Hfull by (rewrite length_insert; exact Hlen).
      congruence.
    + apply line_full_insert_off in Hfull; assumption.
  - rewrite list_insert_insert_ne by lia.
    destruct (on_line_dec n line) as [Hthrough | Hoff].
    + apply (line_full_through _ _ _ _ Hthrough) in Hfull.
      rewrite list_lookup_insert_ne in Hfull by lia. congruence.
    + apply line_full_insert_off; assumption.
Qed.

Lemma checkWinner_null_no_line board : checkWinner board = RNull → no_line board patterns.
Proof. intros H. apply checkWinner_null in H. apply H. Qed.

Lemma empties_le_9 board : length board = 9%nat → (empties board ≤ 9)%nat.
Proof. intros <-. apply empties_le_length. Qed.

(** The score of a candidate is 10 exactly when it wins at once. *)
Lemma score_of_win fuel board i :
  (empties board ≤ fuel)%nat → i ∈ emptyCells board →
  checkWinner (place board i O) = RMark O → score_of fuel board i = Fin 10.
Proof.
  intros Hfuel Hi Hw. rewrite score_of_plain by assumption.
  pose proof (empties_place board i O Hi). apply plain_win; [lia | exact Hw].
Qed.

Lemma score_of_no_win fuel board i :
  (empties board ≤ fuel)%nat → (empties board ≤ 10)%nat → i ∈ emptyCells board →
  checkWinner (place board i O) ≠ RMark O →
  ∃ z, score_of fuel board i = Fin z ∧ z ≤ 9.
Proof.
  intros Hfuel He Hi Hw. rewrite score_of_plain by assumption.
  pose proof (empties_place board i O Hi).
  destruct (plain_no_win fuel (place board i O) 0 false) as (z & Hz & _ & Hb);
    [lia | lia | lia |].
  exists z. split; [exact Hz|]. specialize (Hb Hw). lia.
Qed.

(** When some placement of ['O'] wins at once, the cell returned is one
    whose placement wins at once: such a cell scores 10, any other at most
    9. *)
Lemma bestMove_of_wins fuel board n :
  length board = 9%nat → (empties board ≤ fuel)%nat →
  board !! n = Some None →
  checkWinner (<[n := Some O]> board) = RMark O →
  bestMove_of fuel board ∈ emptyCells board ∧
  checkWinner (place board (bestMove_of fuel board) O) = RMark O.
Proof.
  intros Hlen Hfuel Hcell Hwon.
  pose proof (empties_le_9 _ Hlen) as He.
  destruct (bestMove_of_greatest fuel board Hfuel (emptyCells_cons _ _ Hcell)) as [Hin Hall].
  set (r := bestMove_of fuel board) in *.
  split; [exact Hin|].
  assert (Hwin : Z.of_nat n ∈ emptyCells board) by (apply emptyCells_elem; eauto).
  specialize (Hall _ Hwin).
  rewrite (score_of_win fuel board (Z.of_nat n)) in Hall;
    [| exact Hfuel | exact Hwin | rewrite place_of_nat; exact Hwon].
  destruct (checkWinner (place board r O)) as [[|]| |] eqn:Hw; [|reflexivity| |].
  all: destruct (score_of_no_win fuel board r) as (z & Hz & Hb);
    [exact Hfuel | lia | exact Hin | congruence |];
    rewrite Hz in Hall; exfalso; clear -Hall Hb; num_solve.
Qed.

(** C3. For every 9-cell board on which ['O'] has an empty cell whose
    placement wins at once (the evaluator reports ['O'] after it),
    [getBestMove] returns such a cell, never another.  On a board that has
    not ended these are the cells whose placement completes a win-line of
    ['O'], and [getBestMove] returns one of them.  On
    [[O,O,null,X,X,null,null,null,null]] it returns index 2. *)
Theorem getBestMove_takes_win (board : Board) (fuel : nat) :
  length board = 9%nat →
  (empties board ≤ fuel)%nat →
  ((∃ n, board !! n = Some None ∧ checkWinner (<[n := Some O]> board) = RMark O) →
   ∃ i, getBestMove fuel board = Some (i, board) ∧
        0 ≤ i ≤ 8 ∧ board !! Z.to_nat i = Some None ∧
        checkWinner (<[Z.to_nat i := Some O]> board) = RMark O) ∧
  (checkWinner board = RNull → (∃ n, completes board O n) →
   ∃ i, getBestMove fuel board = Some (i, board) ∧
        0 ≤ i ∧ completes board O (Z.to_nat i)) ∧
  getBestMove 9 scenario4 = Some (2, scenario4).
Proof.
  intros Hlen Hfuel. split; [|split; [|vm_compute; reflexivity]].
  - intros (n & Hcell & Hwon).
    destruct (bestMove_of_wins fuel board n Hlen Hfuel Hcell Hwon) as [Hin Hw].
    exists (bestMove_of fuel board). split; [apply getBestMove_run, Hfuel|].
    split; [apply emptyCells_range in Hin; lia|].
    split; [apply emptyCells_lookup, Hin | exact Hw].
  - intros Hnull [n Hn].
    pose proof (checkWinner_null_no_line _ Hnull) as Hno.
    pose proof Hn as [Hcell _].
    destruct (bestMove_of_wins fuel board n Hlen Hfuel Hcell (completes_winner _ _ _ Hno Hn))
      as [Hin Hw].
    exists (bestMove_of fuel board). split; [apply getBestMove_run, Hfuel|].
    split; [apply emptyCells_range in Hin; lia|].
    unfold place in Hw. eapply place_winner in Hw; [apply Hw | exact Hno |].
    apply emptyCells_lookup, Hin.
Qed.

Lemma getBestMove_takes_win_witness :
  (∃ i, getBestMove 9 scenario4 = Some (i, scenario4) ∧
        0 ≤ i ≤ 8 ∧ scenario4 !! Z.to_nat i = Some None ∧
        checkWinner (<[Z.to_nat i := Some O]> scenario4) = RMark O) ∧
  (∃ i, getBestMove 9 scenario4 = Some (i, scenario4) ∧
        0 ≤ i ∧ completes scenario4 O (Z.to_nat i)) ∧
  getBestMove 9 scenario4 = Some (2, scenario4).
Proof.
  destruct (getBestMove_takes_win scenario4 9) as (H1 & H2 & H3);
    [reflexivity | vm_compute; lia |].
  split; [|split; [|exact H3]].
  - apply H1. exists 2%nat. split; [reflexivity | vm_compute; reflexivity].
  - apply H2; [vm_compute; reflexivity|].
    exists 2%nat. apply completesb_spec. vm_compute. reflexivity.
Defined.

(** On a board that has already ended the evaluator reports the first
    filled line after any placement.  On [lateBoard], won by ['X'], writing
    ['O'] into cell 8 fills the bottom row but is no win of ['O']: the
    evaluator still reports ['X'], every candidate scores the same, and
    [getBestMove] returns the first empty cell. *)
Lemma ended_board_has_no_win :
  checkWinner lateBoard = RMark X ∧
  completes lateBoard O 8 ∧
  checkWinner (<[8%nat := Some O]> lateBoard) = RMark X ∧
  getBestMove 9 lateBoard = Some (0, lateBoard).
Proof.
  split; [vm_compute; reflexivity|].
  split; [apply completesb_spec; vm_compute; reflexivity|].
  split; vm_compute; reflexivity.
Qed.

(** A candidate other than the threatened cell leaves ['X'] its win at the
    next move: the score is that of a loss at depth 1. *)
Lemma score_of_unblocked fuel board t j :
  length board = 9%nat → checkWinner board = RNull →
  completes board X t → (∀ n, ¬ completes board O n) →
  (empties board ≤ fuel)%nat →
  j ∈ emptyCells board → j ≠ Z.of_nat t →
  score_of fuel board j = Fin (-9).
Proof.
  intros Hlen Hnull Ht HnoO Hfuel Hj Hjt.
  pose proof (checkWinner_null_no_line _ Hnull) as Hno.
  pose proof (empties_le_9 _ Hlen) as He.
  pose proof (emptyCells_lookup _ _ Hj) as Hcell.
  pose proof (empties_place board j O Hj) as Hej.
  pose proof Ht as [Htcell _].
  assert (Hnt : Z.to_nat j ≠ t) by (apply emptyCells_range in Hj; lia).
  rewrite score_of_plain by assumption.
  set (b1 := place board j O) in *.
  assert (Ht1 : b1 !! t = Some None).
  { unfold b1, place. rewrite list_lookup_insert_ne by exact Hnt. exact Htcell. }
  assert (Hb1 : checkWinner b1 = RNull).
  { destruct (checkWinner b1) as [m'| |] eqn:E; [| |reflexivity].
    - apply place_winner in E as [-> Hc]; [|assumption..]. destruct (HnoO _ Hc).
    - apply checkWinner_draw in E as [_ Hfull]. destruct (Hfull t Ht1). }
  assert (HT : Z.of_nat t ∈ emptyCells b1) by (apply emptyCells_elem; eauto).
  pose proof (empties_place b1 _ X HT) as Het.
  destruct fuel as [|fuel]; [lia|]. simpl. rewrite Hb1.
  set (g := λ i, plain fuel (place b1 i X) (0 + 1) true).
  assert (HgT : g (Z.of_nat t) = Fin (-9)).
  { unfold g. rewrite plain_loss; [reflexivity | lia |].
    rewrite place_of_nat. apply completes_winner.
    - apply checkWinner_null_no_line, Hb1.
    - apply completes_place_other; [discriminate | assumption | assumption | exact Ht]. }
  destruct (min_all_pred (λ z, -9 ≤ z) g (emptyCells b1)) with (best := PosInf)
    as (z & Hz & Hb).
  - intros i Hi. pose proof (empties_place b1 i X Hi).
    destruct (plain_bounds fuel (place b1 i X) (0 + 1) true) as (z & Hz & Hb);
      [lia | lia | lia |]. exists z. split; [exact Hz | lia].
  - left. split; [reflexivity|]. intros E. rewrite E in HT. apply elem_of_nil in HT. exact HT.
  - pose proof (min_all_le_elem g _ _ HT PosInf) as Hle.
    rewrite Hz, HgT in Hle. rewrite Hz. f_equal. clear -Hle Hb. num_solve.
Qed.

(** Taking the threatened cell leaves ['X'] no win at the next move: the
    score is above that of a loss at depth 1. *)
Lemma score_of_block fuel board t :
  length board = 9%nat → checkWinner board = RNull →
  completes board X t → (∀ n, completes board X n → n = t) →
  (∀ n, ¬ completes board O n) →
  (empties board ≤ fuel)%nat →
  ∃ z, score_of fuel board (Z.of_nat t) = Fin z ∧ -8 ≤ z.
Proof.
  intros Hlen Hnull Ht Huniq HnoO Hfuel.
  pose proof (checkWinner_null_no_line _ Hnull) as Hno.
  pose proof (empties_le_9 _ Hlen) as He.
  pose proof Ht as [Htcell _].
  assert (HT : Z.of_nat t ∈ emptyCells board) by (apply emptyCells_elem; eauto).
  pose proof (empties_place board _ O HT) as Het.
  rewrite score_of_plain by assumption. rewrite place_of_nat in *.
  set (b1 := <[t := Some O]> board) in *.
  destruct fuel as [|fuel]; [lia|]. simpl.
  destruct (checkWinner b1) as [m'| |] eqn:Hb1.
  - apply place_winner in Hb1 as [-> Hc]; [|assumption..]. destruct (HnoO _ Hc).
  - exists 0. split; [reflexivity | lia].
  - apply (min_all_pred (λ z, -8 ≤ z)).
    + intros i Hi. pose proof (empties_place b1 i X Hi).
      destruct (plain_no_win fuel (place b1 i X) (0 + 1) true) as (z & Hz & Hb & _);
        [lia | lia | lia |].
      exists z. split; [exact Hz|].
      assert (Hnx : checkWinner (place b1 i X) ≠ RMark X); [|specialize (Hb Hnx); lia].
      intros E. pose proof (emptyCells_lookup _ _ Hi) as Hicell.
      apply place_winner in E as [_ Hc];
        [| apply checkWinner_null_no_line, Hb1 | exact Hicell].
      assert (Hti : t ≠ Z.to_nat i).
      { intros E. rewrite <- E in Hicell. unfold b1 in Hicell.
        rewrite list_lookup_insert_eq in Hicell by (eapply lookup_lt_Some, Htcell).
        discriminate. }
      apply completes_place_other in Hc; [|discriminate | exact Htcell | exact Hti].
      apply Huniq in Hc. congruence.
    + left. split; [reflexivity|]. apply emptyCells_nonempty, Hb1.
Qed.

(** C4. For every non-terminal 9-cell board on which ['X'] has exactly one
    cell whose placement completes a win-line and ['O'] has none,
    [getBestMove] returns that cell. *)
Theorem getBestMove_blocks (board : Board) (fuel : nat) (t : nat) :
  length board = 9%nat →
  checkWinner board = RNull →
  completes board X t →
  (∀ n, completes board X n → n = t) →
  (∀ n, ¬ completes board O n) →
  (empties board ≤ fuel)%nat →
  getBestMove fuel board = Some (Z.of_nat t, board).
Proof.
  intros Hlen Hnull Ht Huniq HnoO Hfuel.
  rewrite getBestMove_run by exact Hfuel. do 2 f_equal.
  pose proof Ht as [Htcell _].
  destruct (bestMove_of_greatest fuel board Hfuel (emptyCells_cons _ _ Htcell)) as [Hin Hall].
  set (r := bestMove_of fuel board) in *.
  destruct (decide (r = Z.of_nat t)) as [E | Hne]; [exact E | exfalso].
  assert (HT : Z.of_nat t ∈ emptyCells board) by (apply emptyCells_elem; eauto).
  specialize (Hall _ HT).
  rewrite (score_of_unblocked fuel board t r) in Hall by assumption.
  destruct (score_of_block fuel board t) as (z & Hz & Hb); try assumption.
  rewrite Hz in Hall. clear -Hall Hb. num_solve.
Qed.

Lemma getBestMove_blocks_witness :
  getBestMove 7 threatBoard = Some (Z.of_nat 2, threatBoard).
Proof.
  apply (getBestMove_blocks threatBoard 7 2).
  - reflexivity.
  - vm_compute. reflexivity.
  - apply completesb_spec. vm_compute. reflexivity.
  - intros n H.
    assert (Hn : (n < 9)%nat) by (destruct H as [Hc _]; apply lookup_lt_Some in Hc; exact Hc).
    apply completesb_spec in H.
    do 9 (destruct n as [|n]; [vm_compute in H; first [discriminate H | reflexivity] |]).
    lia.
  - intros n H.
    assert (Hn : (n < 9)%nat) by (destruct H as [Hc _]; apply lookup_lt_Some in Hc; exact Hc).
    apply completesb_spec in H.
    do 9 (destruct n as [|n]; [vm_compute in H; discriminate H |]).
    lia.
  - vm_compute. lia.
Defined.


(** * Further properties of the solver *)

(** ** The order of the candidates *)

Lemma emptyCells_sorted_gen (h : nat → Z) (board : Board) (l : list Z) :
  (∀ n k, (n < k)%nat → h n < h k) →
  l = filter (λ i : Z, i ≠ -1)
        (imap (λ (i : nat) (val : Mark), if decide (val = None) then h i else -1) board) →
  StronglySorted Z.lt l ∧ ∀ x, x ∈ l → ∃ k, x = h k.
Proof.
  revert h l. induction board as [|c board IH]; intros h l Hmono ->.
  - split; [constructor|]. intros x Hx. apply elem_of_nil in Hx. destruct Hx.
  - destruct (IH (h ∘ S) _ (λ n k Hnk, Hmono (S n) (S k) (proj1 (Nat.succ_lt_mono n k) Hnk))
                eq_refl) as [Hs He].
    rewrite imap_cons. destruct (decide (c = None)) as [->|Hc].
    + destruct (decide (h 0%nat = -1)) as [E|Hne].
      * rewrite filter_cons_False by (intros H; apply H; exact E).
        split; [exact Hs|]. intros x Hx. destruct (He x Hx) as [k ->]. exists (S k). reflexivity.
      * rewrite filter_cons_True by exact Hne. split.
        -- constructor; [exact Hs|]. apply Forall_forall. intros x Hx.
           destruct (He x Hx) as [k ->]. simpl. apply Hmono. lia.
        -- intros x [-> | Hx]%elem_of_cons; [exists 0%nat; reflexivity|].
           destruct (He x Hx) as [k ->]. exists (S k). reflexivity.
    + rewrite filter_cons_False by (intros H; apply H; reflexivity).
      split; [exact Hs|]. intros x Hx. destruct (He x Hx) as [k ->]. exists (S k). reflexivity.
Qed.

Lemma emptyCells_sorted board : StronglySorted Z.lt (emptyCells board).
Proof. apply (emptyCells_sorted_gen Z.of_nat board); [|reflexivity]. intros n k H. lia. Qed.

(** X1. The candidate list holds exactly the indices of the [null] cells,
    in strictly ascending order. *)
Theorem emptyCells_ascending (board : Board) :
  StronglySorted Z.lt (emptyCells board) ∧
  (∀ i, i ∈ emptyCells board ↔ ∃ n : nat, i = Z.of_nat n ∧ board !! n = Some None) ∧
  length (emptyCells board) = length (filter (λ c : Mark, c = None) board).
Proof.
  split; [apply emptyCells_sorted|]. split; [apply emptyCells_elem|].
  apply empties_count.
Qed.

(** ** The first candidate of greatest score *)

Lemma best_pure_first score candidates : ∀ topScore bestMove,
  let r := best_pure score candidates topScore bestMove in
  (r = bestMove ∧ ∀ j, j ∈ candidates → num_le (score j) topScore) ∨
  (∃ pre post, candidates = pre ++ r :: post ∧ num_lt topScore (score r) ∧
     (∀ j, j ∈ pre → num_lt (score j) (score r)) ∧
     (∀ j, j ∈ post → num_le (score j) (score r))).
Proof.
  induction candidates as [|i rest IH]; intros top best; simpl.
  - left. split; [reflexivity|]. intros j Hj. apply elem_of_nil in Hj. destruct Hj.
  - destruct (num_gtb (score i) top) eqn:E.
    + apply num_gtb_true in E. right.
      destruct (IH (score i) i) as [[-> Hall] | (pre & post & Heq & Hlt & Hpre & Hpost)].
      * exists [], rest. split; [reflexivity|]. split; [exact E|].
        split; [|exact Hall]. intros j Hj. apply elem_of_nil in Hj. destruct Hj.
      * exists (i :: pre), post. split; [simpl; f_equal; exact Heq|]. split.
        -- eapply num_lt_le_trans; [exact E | apply num_lt_le, Hlt].
        -- split; [|exact Hpost].
           intros j [-> | Hj]%elem_of_cons; [exact Hlt | apply Hpre, Hj].
    + assert (Hi : num_le (score i) top).
      { unfold num_gtb in E. unfold num_le. destruct (num_leb (score i) top); [reflexivity|discriminate]. }
      destruct (IH top best) as [[-> Hall] | (pre & post & Heq & Hlt & Hpre & Hpost)].
      * left. split; [reflexivity|].
        intros j [-> | Hj]%elem_of_cons; [exact Hi | apply Hall, Hj].
      * right. exists (i :: pre), post. split; [simpl; f_equal; exact Heq|].
        split; [exact Hlt|]. split; [|exact Hpost].
        intros j [-> | Hj]%elem_of_cons; [|apply Hpre, Hj].
        eapply num_le_lt_trans; [exact Hi | exact Hlt].
Qed.

Lemma bestMove_of_first fuel board j :
  (empties board ≤ fuel)%nat → j ∈ emptyCells board →
  num_le (score_of fuel board j) (score_of fuel board (bestMove_of fuel board)) ∧
  (j < bestMove_of fuel board →
   num_lt (score_of fuel board j) (score_of fuel board (bestMove_of fuel board))).
Proof.
  intros Hfuel Hj.
  assert (Hne : emptyCells board ≠ []).
  { intros E. rewrite E in Hj. apply elem_of_nil in Hj. exact Hj. }
  destruct (bestMove_of_greatest fuel board Hfuel Hne) as [Hin Hall].
  split; [apply Hall, Hj|]. intros Hlt.
  pose proof (emptyCells_sorted board) as Hs.
  unfold bestMove_of in *.
  destruct (best_pure_first (score_of fuel board) (emptyCells board) NegInf 0)
    as [[_ Hall'] | (pre & post & Heq & _ & Hpre & _)].
  - destruct (score_of_finite fuel board j Hfuel Hj) as [z Hz].
    specialize (Hall' j Hj). rewrite Hz in Hall'. discriminate.
  - set (r := best_pure (score_of fuel board) (emptyCells board) NegInf 0) in *.
    rewrite Heq in Hj, Hs. apply elem_of_app in Hj as [Hj | Hj]; [apply Hpre, Hj|].
    exfalso. apply StronglySorted_app_1_r in Hs. inversion Hs as [|? ? _ Hall'']; subst.
    apply elem_of_cons in Hj as [-> | Hj]; [lia|].
    rewrite Forall_forall in Hall''. specialize (Hall'' j Hj). lia.
Qed.

(** X4. Among the empty cells, [getBestMove] returns the one of lowest
    index whose score is the greatest: no empty cell scores more, and every
    empty cell of lower index scores strictly less. *)
Theorem getBestMove_first_of_greatest (board : Board) (fuel : nat) :
  (∃ n, board !! n = Some None) →
  (empties board ≤ fuel)%nat →
  ∃ r sr,
    getBestMove fuel board = Some (r, board) ∧
    minimax fuel 0 false NegInf PosInf (place board r O) = Some (sr, place board r O) ∧
    ∀ j : nat, board !! j = Some None →
      ∃ sj, minimax fuel 0 false NegInf PosInf (<[j := Some O]> board)
            = Some (sj, <[j := Some O]> board) ∧
            num_le sj sr ∧ (Z.of_nat j < r → num_lt sj sr).
Proof.
  intros [n Hn] Hfuel.
  destruct (bestMove_of_greatest fuel board Hfuel (emptyCells_cons _ _ Hn)) as [Hin _].
  exists (bestMove_of fuel board), (score_of fuel board (bestMove_of fuel board)).
  split; [apply getBestMove_run, Hfuel|]. split.
  - apply minimax_run. pose proof (empties_place board _ O Hin). lia.
  - intros j Hj.
    assert (Hjin : Z.of_nat j ∈ emptyCells board) by (apply emptyCells_elem; eauto).
    exists (score_of fuel board (Z.of_nat j)). split.
    + rewrite <- place_of_nat. apply minimax_run.
      pose proof (empties_place board _ O Hjin). lia.
    + apply bestMove_of_first; assumption.
Qed.

Lemma getBestMove_first_of_greatest_witness :
  ∃ r sr,
    getBestMove 9 scenario4 = Some (r, scenario4) ∧
    minimax 9 0 false NegInf PosInf (place scenario4 r O) = Some (sr, place scenario4 r O) ∧
    ∀ j : nat, scenario4 !! j = Some None →
      ∃ sj, minimax 9 0 false NegInf PosInf (<[j := Some O]> scenario4)
            = Some (sj, <[j := Some O]> scenario4) ∧
            num_le sj sr ∧ (Z.of_nat j < r → num_lt sj sr).
Proof.
  apply (getBestMove_first_of_greatest scenario4 9);
    [exists 2%nat; reflexivity | vm_compute; lia].
Defined.

(** ** Pruning under any window *)

(** X2. Under any window with [alpha < beta], the pruned search returns the
    exact score when that score lies strictly inside the window, and
    otherwise a value on the same side of the window as the exact score. *)
Theorem pruning_sound_in_window (board : Board) (depth : Z) (isCPU : bool)
    (alpha beta : num) (fuel : nat) :
  (empties board < fuel)%nat →
  num_lt alpha beta →
  ∃ v m,
    minimax fuel depth isCPU alpha beta board = Some (v, board) ∧
    minimax_noprune fuel depth isCPU alpha beta board = Some (m, board) ∧
    (num_lt alpha m → num_lt m beta → v = m) ∧
    (num_le m alpha → num_le v alpha) ∧
    (num_le beta m → num_le beta v).
Proof.
  intros Hfuel Hlt.
  exists (ab fuel board depth isCPU alpha beta), (plain fuel board depth isCPU).
  split; [apply minimax_run, Hfuel|]. split; [apply minimax_noprune_run, Hfuel|].
  destruct (ab_plain fuel board depth isCPU alpha beta Hfuel Hlt) as (H1 & H2 & H3).
  auto.
Qed.

Lemma pruning_sound_in_window_witness :
  ∃ v m,
    minimax 10 0 true (Fin (-1)) (Fin 1) emptyBoard = Some (v, emptyBoard) ∧
    minimax_noprune 10 0 true (Fin (-1)) (Fin 1) emptyBoard = Some (m, emptyBoard) ∧
    (num_lt (Fin (-1)) m → num_lt m (Fin 1) → v = m) ∧
    (num_le m (Fin (-1)) → num_le v (Fin (-1))) ∧
    (num_le (Fin 1) m → num_le (Fin 1) v).
Proof.
  apply (pruning_sound_in_window emptyBoard 0 true (Fin (-1)) (Fin 1) 10);
    [vm_compute; lia | reflexivity].
Defined.

(** ** The range of the scores, pruned or not *)

Lemma max_pure_pred (P : Z → Prop) f moves :
  (∀ i a b, i ∈ moves → ∃ z, f i a b = Fin z ∧ P z) →
  ∀ best alpha beta, (best = NegInf ∧ moves ≠ [] ∨ ∃ z, best = Fin z ∧ P z) →
  ∃ z, max_pure f moves best alpha beta = Fin z ∧ P z.
Proof.
  induction moves as [|i rest IH]; intros Hf best alpha beta Hbest; simpl.
  - destruct Hbest as [[_ H] | H]; [destruct H; reflexivity | exact H].
  - destruct (Hf i alpha beta) as (zi & Hzi & HP); [left|]. rewrite Hzi.
    assert (Hnew : ∃ z, Math_max best (Fin zi) = Fin z ∧ P z).
    { destruct Hbest as [[-> _] | (z & -> & Hz)]; [exists zi; auto|].
      unfold Math_max, num_leb. destruct (z <=? zi); eauto. }
    destruct (num_leb beta (Math_max alpha (Fin zi))); [exact Hnew|].
    apply IH; [intros j a b Hj; apply Hf; right; exact Hj | right; exact Hnew].
Qed.

Lemma min_pure_pred (P : Z → Prop) f moves :
  (∀ i a b, i ∈ moves → ∃ z, f i a b = Fin z ∧ P z) →
  ∀ best alpha beta, (best = PosInf ∧ moves ≠ [] ∨ ∃ z, best = Fin z ∧ P z) →
  ∃ z, min_pure f moves best alpha beta = Fin z ∧ P z.
Proof.
  induction moves as [|i rest IH]; intros Hf best alpha beta Hbest; simpl.
  - destruct Hbest as [[_ H] | H]; [destruct H; reflexivity | exact H].
  - destruct (Hf i alpha beta) as (zi & Hzi & HP); [left|]. rewrite Hzi.
    assert (Hnew : ∃ z, Math_min best (Fin zi) = Fin z ∧ P z).
    { destruct Hbest as [[-> _] | (z & -> & Hz)]; [exists zi; auto|].
      unfold Math_min, num_leb. destruct (z <=? zi); eauto. }
    destruct (num_leb (Math_min beta (Fin zi)) alpha); [exact Hnew|].
    apply IH; [intros j a b Hj; apply Hf; right; exact Hj | right; exact Hnew].
Qed.

(** The scores of the pruned search, whatever the window, satisfy every
    property of integers that the three terminal scores of the positions
    below satisfy.  [ok d] says that depth [d] is one at which the property
    is claimed. *)
Lemma ab_pred (P : Z → Z → Prop) (ok : Z → nat → Prop) fuel :
  (∀ d e, ok d e → P d (10 - d) ∧ P d (d - 10) ∧ P d 0) →
  (∀ d e, ok d (S e) → ok (d + 1) e) →
  (∀ d z, P (d + 1) z → P d z) →
  ∀ board depth isCPU alpha beta,
    (empties board < fuel)%nat → ok depth (empties board) →
    ∃ z, ab fuel board depth isCPU alpha beta = Fin z ∧ P depth z.
Proof.
  intros Hleaf Hok Hup.
  induction fuel as [|fuel IH]; intros board depth isCPU alpha beta Hfuel Hd; [lia|].
  destruct (Hleaf _ _ Hd) as (HO & HX & HD).
  simpl. destruct (checkWinner board) as [[|]| |] eqn:Hw; eauto.
  assert (Hchild : ∀ m i a b, i ∈ emptyCells board →
            ∃ z, ab fuel (place board i m) (depth + 1)
                   (match m with O => false | X => true end) a b = Fin z ∧ P depth z).
  { intros m i a b Hi. pose proof (empties_place board i m Hi) as He.
    destruct (IH (place board i m) (depth + 1) (match m with O => false | X => true end) a b)
      as (z & Hz & HP); [lia | apply Hok; rewrite <- He; exact Hd |]. eauto. }
  apply emptyCells_nonempty in Hw.
  destruct isCPU.
  - apply (max_pure_pred (P depth)); [|left; auto].
    intros i a b Hi. apply (Hchild O i a b Hi).
  - apply (min_pure_pred (P depth)); [|left; auto].
    intros i a b Hi. apply (Hchild X i a b Hi).
Qed.

(** X3. Whatever the window, [minimax] returns an integer, never an
    infinity; and when the depth is not negative and depth plus the number
    of empty cells is at most 10 (every call made for a 9-cell board), the
    integer lies between [depth - 10] and [10 - depth]. *)
Theorem minimax_score_range (board : Board) (depth : Z) (isCPU : bool)
    (alpha beta : num) (fuel : nat) :
  (empties board < fuel)%nat →
  ∃ z, minimax fuel depth isCPU alpha beta board = Some (Fin z, board) ∧
       (0 ≤ depth → depth + Z.of_nat (empties board) ≤ 10 →
        depth - 10 ≤ z ≤ 10 - depth).
Proof.
  intros Hfuel. rewrite minimax_run by exact Hfuel.
  destruct (ab_pred (λ _ _, True) (λ _ _, True) fuel) with
    (board := board) (depth := depth) (isCPU := isCPU) (alpha := alpha) (beta := beta)
    as (z & Hz & _); auto.
  exists z. split; [rewrite Hz; reflexivity|]. intros Hd He.
  destruct (ab_pred (λ d z, d - 10 ≤ z ≤ 10 - d)
              (λ d e, 0 ≤ d ∧ d + Z.of_nat e ≤ 10) fuel) with
    (board := board) (depth := depth) (isCPU := isCPU) (alpha := alpha) (beta := beta)
    as (z' & Hz' & Hb); auto.
  - intros d e [H0 H1]. lia.
  - intros d e [H0 H1]. lia.
  - intros d y H. lia.
  - rewrite Hz in Hz'. injection Hz' as <-. exact Hb.
Qed.

Lemma minimax_score_range_witness :
  ∃ z, minimax 10 0 true (Fin 3) (Fin 2) emptyBoard = Some (Fin z, emptyBoard) ∧
       (0 ≤ 0 → 0 + Z.of_nat (empties emptyBoard) ≤ 10 → 0 - 10 ≤ z ≤ 10 - 0).
Proof. apply (minimax_score_range emptyBoard 0 true (Fin 3) (Fin 2) 10). vm_compute. lia. Defined.

(** ** A placement and the evaluator *)

(** X6. On a board that has not ended, writing a mark into an empty cell
    never makes the evaluator report the other mark's win, and it reports
    the written mark's win exactly when the cell completes a win-line of
    that mark. *)
Theorem placement_outcome (board : Board) (n : nat) (m : mark) :
  checkWinner board = RNull →
  board !! n = Some None →
  checkWinner (<[n := Some m]> board) ≠ RMark (other m) ∧
  (checkWinner (<[n := Some m]> board) = RMark m ↔ completes board m n).
Proof.
  intros Hnull Hn. pose proof (checkWinner_null_no_line _ Hnull) as Hno. split.
  - intros E. apply place_winner in E as [E _]; [|assumption..]. destruct m; discriminate.
  - split.
    + intros E. eapply place_winner in E; [apply E | assumption..].
    + apply completes_winner, Hno.
Qed.

Lemma placement_outcome_witness :
  checkWinner (<[2%nat := Some O]> scenario4) ≠ RMark (other O) ∧
  (checkWinner (<[2%nat := Some O]> scenario4) = RMark O ↔ completes scenario4 O 2).
Proof.
  apply (placement_outcome scenario4 2 O); [vm_compute; reflexivity | reflexivity].
Defined.

(** ** Exchanging the marks *)

Lemma mirror_fmap board : mirror board = option_map other <$> board.
Proof. induction board as [|c board IH]; [reflexivity|]. simpl. f_equal; try exact IH. Qed.

Lemma mirror_lookup board i : mirror board !! i = option_map other <$> board !! i.
Proof. rewrite mirror_fmap. apply list_lookup_fmap. Qed.

Lemma other_involutive m : other (other m) = m.
Proof. destruct m; reflexivity. Qed.

Lemma mirror_line_complete board line :
  line_complete (mirror board) line = line_complete board line.
Proof.
  destruct line as [[a b] c]. unfold line_complete. rewrite !mirror_lookup.
  destruct (board !! a) as [[ma|]|]; simpl; try reflexivity.
  f_equal; apply bool_decide_ext.
  - destruct (board !! b) as [[[|]|]|]; destruct ma; simpl; split; congruence.
  - destruct (board !! c) as [[[|]|]|]; destruct ma; simpl; split; congruence.
Qed.

Lemma mirror_truthy board : forallb truthy (mirror board) = forallb truthy board.
Proof.
  induction board as [|c board IH]; [reflexivity|]. simpl. rewrite IH.
  destruct c; reflexivity.
Qed.

Lemma mirror_checkWinner board :
  checkWinner (mirror board) = mirror_outcome (checkWinner board).
Proof.
  unfold checkWinner. induction patterns as [|line lines IH]; simpl.
  - rewrite mirror_truthy. destruct (forallb truthy board); reflexivity.
  - rewrite mirror_line_complete. destruct (line_complete board line) eqn:E; [|exact IH].
    apply line_complete_true in E as (m & Ha & _). rewrite mirror_lookup, Ha. reflexivity.
Qed.

Lemma mirror_emptyCells board : emptyCells (mirror board) = emptyCells board.
Proof.
  unfold emptyCells. rewrite mirror_fmap, imap_fmap. f_equal.
  apply imap_ext. intros i c _. simpl. destruct c; reflexivity.
Qed.

Lemma mirror_place board i m : place (mirror board) i (other m) = mirror (place board i m).
Proof.
  unfold place. rewrite (mirror_fmap board), (mirror_fmap (<[Z.to_nat i := Some m]> board)).
  rewrite list_fmap_insert. reflexivity.
Qed.

Lemma max_all_neg g moves : ∀ best,
  num_neg (max_all g moves best) = min_all (λ i, num_neg (g i)) moves (num_neg best).
Proof.
  induction moves as [|i rest IH]; intros best; [reflexivity|]. simpl. rewrite IH. f_equal.
  generalize (g i). intros s. clear.
  destruct best as [|x|], s as [|y|]; try reflexivity.
  unfold Math_max, Math_min, num_leb, num_neg.
  destruct (Z.leb_spec x y), (Z.leb_spec (- x) (- y)); f_equal; lia.
Qed.

Lemma min_all_neg g moves : ∀ best,
  num_neg (min_all g moves best) = max_all (λ i, num_neg (g i)) moves (num_neg best).
Proof.
  induction moves as [|i rest IH]; intros best; [reflexivity|]. simpl. rewrite IH. f_equal.
  generalize (g i). intros s. clear.
  destruct best as [|x|], s as [|y|]; try reflexivity.
  unfold Math_max, Math_min, num_leb, num_neg.
  destruct (Z.leb_spec x y), (Z.leb_spec (- x) (- y)); f_equal; lia.
Qed.

Lemma min_all_ext g g' moves :
  (∀ i, i ∈ moves → g i = g' i) →
  ∀ best, min_all g moves best = min_all g' moves best.
Proof.
  induction moves as [|i rest IH]; intros Hg best; [reflexivity|].
  simpl. rewrite (Hg i) by left. apply IH. intros j Hj. apply Hg. right. exact Hj.
Qed.

Lemma max_all_ext g g' moves :
  (∀ i, i ∈ moves → g i = g' i) →
  ∀ best, max_all g moves best = max_all g' moves best.
Proof.
  induction moves as [|i rest IH]; intros Hg best; [reflexivity|].
  simpl. rewrite (Hg i) by left. apply IH. intros j Hj. apply Hg. right. exact Hj.
Qed.

Lemma mirror_plain fuel : ∀ board depth isCPU,
  plain fuel (mirror board) depth (negb isCPU) = num_neg (plain fuel board depth isCPU).
Proof.
  induction fuel as [|fuel IH]; intros board depth isCPU; [reflexivity|].
  simpl. rewrite mirror_checkWinner, mirror_emptyCells.
  destruct (checkWinner board) as [[|]| |]; simpl; try (f_equal; lia).
  destruct isCPU; simpl.
  - rewrite max_all_neg. apply min_all_ext. intros i _.
    change X with (other O). rewrite mirror_place. apply (IH _ _ false).
  - rewrite min_all_neg. apply max_all_ext. intros i _.
    change O with (other X). rewrite mirror_place. apply (IH _ _ true).
Qed.

Lemma mirror_empties board : empties (mirror board) = empties board.
Proof. unfold empties. rewrite mirror_emptyCells. reflexivity. Qed.

(** X5. The scoring is symmetric in the two marks: on the board with the
    marks exchanged and the other side to move, [minimax] (full window)
    returns the opposite score. *)
Theorem minimax_mirror (board : Board) (depth : Z) (isCPU : bool) (fuel : nat) :
  (empties board < fuel)%nat →
  ∃ v, minimax fuel depth isCPU NegInf PosInf board = Some (v, board) ∧
       minimax fuel depth (negb isCPU) NegInf PosInf (mirror board)
       = Some (num_neg v, mirror board).
Proof.
  intros Hfuel. exists (plain fuel board depth isCPU).
  rewrite !minimax_run by (rewrite ?mirror_empties; exact Hfuel).
  rewrite !ab_full_window by (rewrite ?mirror_empties; exact Hfuel).
  rewrite mirror_plain. split; reflexivity.
Qed.

Lemma minimax_mirror_witness :
  ∃ v, minimax 6 1 true NegInf PosInf scenario4 = Some (v, scenario4) ∧
       minimax 6 1 (negb true) NegInf PosInf (mirror scenario4)
       = Some (num_neg v, mirror scenario4).
Proof. apply (minimax_mirror scenario4 1 true 6). vm_compute. lia. Defined.


(** * The game screen *)

Import GameHome.

Lemma occupied_false cells index :
  (index < length cells)%nat → occupied cells index = false → cells !! index = Some None.
Proof.
  intros Hlt H. unfold occupied in H.
  destruct (cells !! index) as [[m|]|] eqn:E; [discriminate | reflexivity |].
  apply lookup_ge_None in E. lia.
Qed.

Lemma occupied_true cells index :
  occupied cells index = true ↔ ∃ m, cells !! index = Some (Some m).
Proof.
  unfold occupied. destruct (cells !! index) as [[m|]|]; split;
    try discriminate; eauto; intros [m' H]; discriminate.
Qed.

Lemma is_winner_false w : is_winner w = false ↔ w = RNull.
Proof. destruct w; simpl; split; congruence. Qed.

Lemma includes_null_true cells : includes_null cells = true ↔ ∃ i, cells !! i = Some None.
Proof.
  unfold includes_null. rewrite existsb_exists. split.
  - intros (val & Hin & Hv). apply bool_decide_eq_true in Hv. subst val.
    apply list_elem_of_In, list_elem_of_lookup in Hin. exact Hin.
  - intros [i Hi]. exists None. split; [|apply bool_decide_eq_true; reflexivity].
    apply list_elem_of_In. eapply list_elem_of_lookup_2, Hi.
Qed.

(** The condition of the effect comes down to its first three tests: a
    board that has not ended includes [null]. *)
Lemma botDue_true st :
  botDue st = true ↔
  versusBot st = true ∧ xTurn st = false ∧ checkWinner (board st) = RNull.
Proof.
  unfold botDue, winner. rewrite !andb_true_iff, !negb_true_iff, is_winner_false,
    includes_null_true. split.
  - intros [[[H1 H2] H3] _]. auto.
  - intros (H1 & H2 & H3). repeat split; try assumption.
    apply checkWinner_null in H3. apply H3.
Qed.

Lemma count_cell_insert (c : Mark) (cells : Board) (n : nat) (v old : Mark) :
  cells !! n = Some old →
  (count_cell c (<[n := v]> cells) + (if decide (old = c) then 1 else 0)
   = count_cell c cells + (if decide (v = c) then 1 else 0))%nat.
Proof.
  unfold count_cell. revert n. induction cells as [|x cells IH]; intros n Hn.
  - rewrite lookup_nil in Hn. discriminate.
  - destruct n as [|n]; simpl in Hn.
    + injection Hn as ->.
      change (<[0%nat := v]> (old :: cells)) with (v :: cells).
      rewrite !filter_cons. destruct (decide (v = c)), (decide (old = c)); simpl; lia.
    + change (<[S n := v]> (x :: cells)) with (x :: <[n := v]> cells).
      rewrite !filter_cons. specialize (IH n Hn).
      destruct (decide (x = c)); simpl; lia.
Qed.

Lemma count_cell_replicate_None c : c ≠ None → count_cell c (replicate 9 None) = 0%nat.
Proof.
  intros Hc. unfold count_cell. simpl.
  rewrite !filter_cons_False by congruence. reflexivity.
Qed.

(** What the timer callback does when it runs. *)
Lemma botTimer_Some st st' :
  botTimer st = Some st' →
  versusBot st = true ∧ xTurn st = false ∧ checkWinner (board st) = RNull ∧
  ∃ i, getBestMove (length (board st)) (board st) = Some (Z.of_nat i, board st) ∧
       board st !! i = Some None ∧
       st' = {| board := <[i := Some O]> (board st); xTurn := true; versusBot := true |}.
Proof.
  unfold botTimer. destruct (botDue st) eqn:Hdue; [|discriminate].
  apply botDue_true in Hdue as (Hv & Hx & Hw).
  pose proof (empties_le_length (board st)) as Hfuel.
  rewrite getBestMove_run by exact Hfuel.
  intros [= <-]. split; [exact Hv|]. split; [exact Hx|]. split; [exact Hw|].
  destruct (bestMove_of_greatest _ _ Hfuel (emptyCells_nonempty _ Hw)) as [Hin _].
  pose proof (emptyCells_range _ _ Hin) as Hr.
  exists (Z.to_nat (bestMove_of (length (board st)) (board st))).
  rewrite Z2Nat.id by lia. split; [reflexivity|].
  split; [apply emptyCells_lookup, Hin|]. rewrite Hv. reflexivity.
Qed.

(** When the effect's condition holds the callback does make a move: the
    fuel it gives to [getBestMove] suffices. *)
Lemma botTimer_due st :
  versusBot st = true → xTurn st = false → checkWinner (board st) = RNull →
  botTimer st ≠ None.
Proof.
  intros Hv Hx Hw. unfold botTimer.
  rewrite (proj2 (botDue_true st)) by auto.
  rewrite getBestMove_run by apply empties_le_length. discriminate.
Qed.

(** X8. The computer's move is scheduled exactly when the mode is
    vs-computer, it is ['O']'s turn and the evaluator reports no end (the
    test [board.includes(null)] adds nothing); the move then writes ['O']
    into an empty cell, changes no other cell and gives the turn to
    ['X']. *)
Theorem botTimer_move (st : state) :
  (botTimer st ≠ None ↔
   versusBot st = true ∧ xTurn st = false ∧ checkWinner (board st) = RNull) ∧
  (∀ st', botTimer st = Some st' →
     ∃ i, board st !! i = Some None ∧
          board st' = <[i := Some O]> (board st) ∧
          xTurn st' = true ∧ versusBot st' = versusBot st).
Proof.
  split.
  - split.
    + destruct (botTimer st) as [st'|] eqn:E; [|congruence]. intros _.
      apply botTimer_Some in E as (H1 & H2 & H3 & _). auto.
    + intros (Hv & Hx & Hw). apply botTimer_due; assumption.
  - intros st' E. apply botTimer_Some in E as (Hv & _ & _ & i & _ & Hi & ->).
    exists i. simpl. rewrite Hv. auto.
Qed.

(** X7. [handleMove] on a rendered cell changes at most that cell and
    never the mode; it never changes a state whose addressed cell is
    occupied; and when it changes the state, the game had not ended, the
    cell was empty, it was not the computer's turn, the mark of the side to
    move is written and the turn passes to the other side. *)
Theorem handleMove_effect (index : nat) (st : state) :
  (index < length (board st))%nat →
  (∀ j, j ≠ index → board (handleMove index st) !! j = board st !! j) ∧
  length (board (handleMove index st)) = length (board st) ∧
  versusBot (handleMove index st) = versusBot st ∧
  (∀ m, board st !! index = Some (Some m) → handleMove index st = st) ∧
  (handleMove index st ≠ st →
     checkWinner (board st) = RNull ∧
     board st !! index = Some None ∧
     (versusBot st = true → xTurn st = true) ∧
     board (handleMove index st) !! index = Some (Some (if xTurn st then X else O)) ∧
     xTurn (handleMove index st) = negb (xTurn st) ∧
     S (empties (board (handleMove index st))) = empties (board st)).
Proof.
  intros Hlt. unfold handleMove.
  destruct (occupied (board st) index) eqn:Hocc; simpl.
  { repeat split; auto; congruence. }
  destruct (is_winner (winner st)) eqn:Hwin; simpl.
  { repeat split; auto; congruence. }
  destruct (versusBot st && negb (xTurn st)) eqn:Hbot.
  { repeat split; auto; congruence. }
  simpl. apply is_winner_false in Hwin. pose proof (occupied_false _ _ Hlt Hocc) as Hcell.
  split; [intros j Hj; apply list_lookup_insert_ne; congruence|].
  split; [apply length_insert|]. split; [reflexivity|].
  split; [intros m Hm; congruence|]. intros _.
  split; [exact Hwin|]. split; [exact Hcell|].
  split; [intros Hv; rewrite Hv in Hbot; destruct (xTurn st); [reflexivity|discriminate]|].
  split; [apply list_lookup_insert_eq, Hlt|]. split; [reflexivity|].
  rewrite !empties_count. symmetry. apply count_null_insert, Hcell.
Qed.

Lemma handleMove_effect_witness :
  (∀ j, j ≠ 4%nat → board (handleMove 4 initial) !! j = board initial !! j) ∧
  length (board (handleMove 4 initial)) = length (board initial) ∧
  versusBot (handleMove 4 initial) = versusBot initial ∧
  (∀ m, board initial !! 4%nat = Some (Some m) → handleMove 4 initial = initial) ∧
  (handleMove 4 initial ≠ initial →
     checkWinner (board initial) = RNull ∧
     board initial !! 4%nat = Some None ∧
     (versusBot initial = true → xTurn initial = true) ∧
     board (handleMove 4 initial) !! 4%nat = Some (Some (if xTurn initial then X else O)) ∧
     xTurn (handleMove 4 initial) = negb (xTurn initial) ∧
     S (empties (board (handleMove 4 initial))) = empties (board initial)).
Proof. apply (handleMove_effect 4 initial). simpl. lia. Defined.

(** ** Invariants of the screen *)

Lemma handleMove_cases index st :
  (index < length (board st))%nat →
  handleMove index st = st ∨
  (checkWinner (board st) = RNull ∧ board st !! index = Some None ∧
   (versusBot st = true → xTurn st = true) ∧
   handleMove index st
   = {| board := <[index := Some (if xTurn st then X else O)]> (board st);
        xTurn := negb (xTurn st); versusBot := versusBot st |}).
Proof.
  intros Hlt. unfold handleMove.
  destruct (occupied (board st) index) eqn:Hocc; simpl; [left; reflexivity|].
  destruct (is_winner (winner st)) eqn:Hwin; simpl; [left; reflexivity|].
  destruct (versusBot st && negb (xTurn st)) eqn:Hbot; [left; reflexivity|].
  right. apply is_winner_false in Hwin.
  split; [exact Hwin|]. split; [apply occupied_false; assumption|].
  split; [|reflexivity].
  intros Hv. rewrite Hv in Hbot. destruct (xTurn st); [reflexivity|discriminate].
Qed.

Lemma balanced_fresh v : balanced {| board := replicate 9 None; xTurn := true; versusBot := v |}.
Proof. split; reflexivity. Qed.

Lemma balanced_step st e st' : balanced st → step e st = Some st' → balanced st'.
Proof.
  intros [Hlen Hcnt] Hstep. destruct e as [index| | |]; simpl in Hstep.
  - destruct (bool_decide (index < length (board st))%nat) eqn:Hlt; [|discriminate].
    apply bool_decide_eq_true in Hlt. injection Hstep as <-.
    destruct (handleMove_cases index st Hlt) as [-> | (_ & Hcell & _ & ->)];
      [split; assumption|].
    split; simpl; [rewrite length_insert; exact Hlen|].
    pose proof (count_cell_insert (Some X) _ index (Some (if xTurn st then X else O)) _ Hcell) as HX.
    pose proof (count_cell_insert (Some O) _ index (Some (if xTurn st then X else O)) _ Hcell) as HO.
    destruct (xTurn st); simpl in *;
      repeat (destruct (decide _) as [?|?] in HX; try congruence);
      repeat (destruct (decide _) as [?|?] in HO; try congruence); lia.
  - apply botTimer_Some in Hstep as (_ & Hx & _ & i & _ & Hcell & ->).
    split; simpl; [rewrite length_insert; exact Hlen|].
    pose proof (count_cell_insert (Some X) _ i (Some O) _ Hcell) as HX.
    pose proof (count_cell_insert (Some O) _ i (Some O) _ Hcell) as HO.
    rewrite Hx in Hcnt.
    repeat (destruct (decide _) as [?|?] in HX; try congruence);
      repeat (destruct (decide _) as [?|?] in HO; try congruence); lia.
  - destruct (is_winner (winner st)); [|discriminate]. injection Hstep as <-.
    apply balanced_fresh.
  - injection Hstep as <-. apply balanced_fresh.
Qed.

(** X9. In every state the screen can reach the board has 9 cells, and
    ['X'] has as many marks as ['O'] when it is ['X']'s turn, one more when
    it is ['O']'s. *)
Theorem reachable_balanced (st : state) :
  reachable st →
  length (board st) = 9%nat ∧
  count_cell (Some X) (board st)
  = (count_cell (Some O) (board st) + if xTurn st then 0 else 1)%nat.
Proof.
  intros H. change (balanced st). induction H as [|st e st' _ IH Hstep].
  - apply balanced_fresh.
  - eapply balanced_step; eassumption.
Qed.

Lemma reachable_balanced_witness :
  length (board initial) = 9%nat ∧
  count_cell (Some X) (board initial)
  = (count_cell (Some O) (board initial) + if xTurn initial then 0 else 1)%nat.
Proof. apply (reachable_balanced initial). apply reachable_initial. Defined.

(** ** The computer is not beaten *)

Lemma computer_safe_not_lost n cells xT :
  computer_safe n cells xT = true → checkWinner cells ≠ RMark X.
Proof.
  destruct n; simpl; destruct (checkWinner cells) as [[|]| |]; congruence.
Qed.

Lemma computer_safe_press n cells i :
  checkWinner cells = RNull → cells !! i = Some None →
  computer_safe n cells true = true →
  ∃ n', computer_safe n' (<[i := Some X]> cells) false = true.
Proof.
  intros Hw Hi Hs. destruct n as [|n]; simpl in Hs; rewrite Hw in Hs; [discriminate|].
  exists n. rewrite forallb_forall in Hs.
  specialize (Hs (Z.of_nat i)). rewrite Nat2Z.id in Hs. apply Hs.
  apply list_elem_of_In, emptyCells_elem. eauto.
Qed.

Lemma computer_safe_reply n cells i cells' :
  checkWinner cells = RNull →
  getBestMove (length cells) cells = Some (Z.of_nat i, cells') →
  computer_safe n cells false = true →
  ∃ n', computer_safe n' (<[i := Some O]> cells) true = true.
Proof.
  intros Hw Hg Hs. destruct n as [|n]; simpl in Hs; rewrite Hw in Hs; [discriminate|].
  rewrite Hg, Nat2Z.id in Hs. eauto.
Qed.

(** The exploration from the empty board, ['X'] to move, finds no line of
    ['X']. *)
Lemma computer_safe_from_start : computer_safe 10 (replicate 9 None) true = true.
Proof. vm_compute. reflexivity. Qed.

Lemma unbeaten_step st e st' : unbeaten st → step e st = Some st' → unbeaten st'.
Proof.
  intros Hinv Hstep. destruct e as [index| | |]; simpl in Hstep.
  - destruct (bool_decide (index < length (board st))%nat) eqn:Hlt; [|discriminate].
    apply bool_decide_eq_true in Hlt. injection Hstep as <-.
    destruct (handleMove_cases index st Hlt) as [-> | (Hw & Hcell & Hturn & ->)];
      [exact Hinv|].
    intros Hv. simpl in Hv. destruct (Hinv Hv) as [n Hn].
    rewrite (Hturn Hv) in *. simpl. eapply computer_safe_press; eassumption.
  - apply botTimer_Some in Hstep as (Hv & Hx & Hw & i & Hg & _ & ->).
    intros _. simpl. destruct (Hinv Hv) as [n Hn]. rewrite Hx in Hn.
    eapply computer_safe_reply; eassumption.
  - destruct (is_winner (winner st)); [|discriminate]. injection Hstep as <-.
    intros _. exists 10%nat. apply computer_safe_from_start.
  - injection Hstep as <-. intros _. exists 10%nat. apply computer_safe_from_start.
Qed.

(** X10. Played against the computer, ['X'] never wins: in no state the
    screen can reach in vs-computer mode does the evaluator report ['X']. *)
Theorem computer_never_loses (st : state) :
  reachable st → versusBot st = true → checkWinner (board st) ≠ RMark X.
Proof.
  intros H Hv.
  assert (Hinv : unbeaten st).
  { clear Hv. induction H as [|st e st' _ IH Hstep].
    - intros _. exists 10%nat. apply computer_safe_from_start.
    - eapply unbeaten_step; eassumption. }
  destruct (Hinv Hv) as [n Hn]. eapply computer_safe_not_lost, Hn.
Qed.

Lemma computer_never_loses_witness : checkWinner (board initial) ≠ RMark X.
Proof. apply (computer_never_loses initial); [apply reachable_initial | reflexivity]. Defined.

(** ** Progress of a game *)

(** While the game has not ended a move is possible, and it fills one
    cell. *)
Lemma step_progress st :
  checkWinner (board st) = RNull →
  ∃ e st', (e = BotTimer ∨ ∃ index, e = Press index) ∧
           step e st = Some st' ∧ S (empties (board st')) = empties (board st).
Proof.
  intros Hw. destruct (versusBot st && negb (xTurn st)) eqn:Hbot.
  - apply andb_true_iff in Hbot as [Hv Hx]. apply negb_true_iff in Hx.
    destruct (botTimer st) as [st'|] eqn:E.
    + exists BotTimer, st'. split; [left; reflexivity|]. split; [exact E|].
      apply botTimer_Some in E as (_ & _ & _ & i & _ & Hcell & ->). simpl.
      rewrite !empties_count. symmetry. apply count_null_insert, Hcell.
    + exfalso. revert E. apply botTimer_due; assumption.
  - pose proof Hw as (_ & i & Hi)%checkWinner_null.
    pose proof (lookup_lt_Some _ _ _ Hi) as Hlt.
    exists (Press i), (handleMove i st). split; [right; eauto|]. simpl.
    rewrite bool_decide_eq_true_2 by exact Hlt. split; [reflexivity|].
    unfold handleMove, occupied, winner. rewrite Hi, Hw, Hbot. simpl.
    rewrite !empties_count. symmetry. apply count_null_insert, Hi.
Qed.

(** A press or a computer's move leaves the state as it is or fills one
    cell. *)
Lemma step_fills st e st' :
  (e = BotTimer ∨ ∃ index, e = Press index) → step e st = Some st' →
  st' = st ∨ S (empties (board st')) = empties (board st).
Proof.
  intros [-> | [index ->]] Hstep; simpl in Hstep.
  - right. apply botTimer_Some in Hstep as (_ & _ & _ & i & _ & Hcell & ->). simpl.
    rewrite !empties_count. symmetry. apply count_null_insert, Hcell.
  - destruct (bool_decide (index < length (board st))%nat) eqn:Hlt; [|discriminate].
    apply bool_decide_eq_true in Hlt. injection Hstep as <-.
    destruct (handleMove_cases index st Hlt) as [E | (_ & Hcell & _ & E)];
      [left; exact E | right].
    rewrite E. simpl. rewrite !empties_count. symmetry. apply count_null_insert, Hcell.
Qed.

(** A run of moves uses up one empty cell per move. *)
Lemma moves_count es st st' :
  moves es st st' → (length es + empties (board st') = empties (board st))%nat.
Proof.
  induction 1 as [st | e es st st1 st' He Hstep Hne _ IH]; [reflexivity|].
  destruct (step_fills st e st1 He Hstep) as [E | E]; [contradiction|].
  simpl. lia.
Qed.

(** No move is left once the evaluator reports an end. *)
Lemma moves_ended es st st' :
  checkWinner (board st) ≠ RNull → moves es st st' → es = [] ∧ st' = st.
Proof.
  intros Hw H. destruct H as [st | e es st st1 st' He Hstep Hne _]; [auto|].
  exfalso. apply Hne. destruct He as [-> | [index ->]]; simpl in Hstep.
  - apply botTimer_Some in Hstep as (_ & _ & Hnull & _). contradiction.
  - destruct (bool_decide (index < length (board st))%nat) eqn:Hlt; [|discriminate].
    apply bool_decide_eq_true in Hlt. injection Hstep as <-.
    destruct (handleMove_cases index st Hlt) as [E | (Hnull & _)]; [exact E | contradiction].
Qed.

(** Every game can be played to its end. *)
Lemma play_to_end n : ∀ st,
  empties (board st) = n →
  ∃ es st', moves es st st' ∧ checkWinner (board st') ≠ RNull.
Proof.
  induction n as [|n IH]; intros st Hn.
  - destruct (checkWinner (board st)) eqn:Hw.
    1,2: exists [], st; split; [constructor | congruence].
    destruct (step_progress st Hw) as (e & st1 & _ & _ & He). lia.
  - destruct (checkWinner (board st)) eqn:Hw.
    1,2: exists [], st; split; [constructor | congruence].
    destruct (step_progress st Hw) as (e & st1 & He & Hstep & Hcnt).
    destruct (IH st1) as (es & st' & Hrun & Hend); [lia|].
    exists (e :: es), st'. split; [|exact Hend].
    econstructor; eauto. intros E. rewrite E in Hcnt. lia.
Qed.

(** X11. While the evaluator reports no end, some move is possible (the
    computer's when it is due, a press on an empty cell otherwise), and a
    press or a computer's move that changes the state fills exactly one more
    cell.  So a run of [k] moves from a state leaves [k] fewer empty cells:
    no run is longer than the number of empty cells; a run that reaches an
    end cannot be continued; and from every state some run reaches an end
    (a win or a draw). *)
Theorem game_progress (st : state) :
  (checkWinner (board st) = RNull →
   ∃ e st', step e st = Some st' ∧ S (empties (board st')) = empties (board st)) ∧
  (∀ e st', (e = BotTimer ∨ ∃ index, e = Press index) → step e st = Some st' →
     st' = st ∨ S (empties (board st')) = empties (board st)) ∧
  (∀ es st', moves es st st' →
     (length es + empties (board st') = empties (board st))%nat ∧
     (length es ≤ empties (board st))%nat ∧
     (checkWinner (board st') ≠ RNull → ∀ es' st'', moves es' st' st'' → es' = [])) ∧
  (∃ es st', moves es st st' ∧ checkWinner (board st') ≠ RNull ∧
             (length es ≤ empties (board st))%nat).
Proof.
  split; [|split; [|split]].
  - intros Hw. destruct (step_progress st Hw) as (e & st' & _ & H1 & H2). eauto.
  - intros e st'. apply step_fills.
  - intros es st' Hrun. pose proof (moves_count _ _ _ Hrun) as Hc.
    split; [exact Hc|]. split; [lia|].
    intros Hend es' st'' Hrun'. eapply moves_ended; eassumption.
  - destruct (play_to_end _ st eq_refl) as (es & st' & Hrun & Hend).
    exists es, st'. split; [exact Hrun|]. split; [exact Hend|].
    pose proof (moves_count _ _ _ Hrun). lia.
Qed.

Lemma game_progress_witness :
  ∃ es st', moves es initial st' ∧ checkWinner (board st') ≠ RNull ∧
            (length es ≤ empties (board initial))%nat.
Proof. destruct (game_progress initial) as (_ & _ & _ & H). exact H. Defined.

(** X12. Once the evaluator reports an end (a win or a draw), no press
    changes the state and no computer's move is scheduled: the board stays
    as it is until New Game or the mode button resets it to nine empty
    cells with ['X'] to move. *)
Theorem ended_game_frozen (st : state) :
  checkWinner (board st) ≠ RNull →
  (∀ index, handleMove index st = st) ∧
  botTimer st = None ∧
  step NewGame st = Some {| board := replicate 9 None; xTurn := true;
                            versusBot := versusBot st |} ∧
  step SwitchMode st = Some {| board := replicate 9 None; xTurn := true;
                               versusBot := negb (versusBot st) |}.
Proof.
  intros Hw.
  assert (Hwin : is_winner (winner st) = true).
  { destruct (is_winner (winner st)) eqn:E; [reflexivity|].
    apply is_winner_false in E. destruct (Hw E). }
  split; [|split; [|split]].
  - intros index. unfold handleMove. rewrite Hwin, orb_true_r. reflexivity.
  - unfold botTimer, botDue. rewrite Hwin. simpl. rewrite andb_false_r. reflexivity.
  - simpl. rewrite Hwin. reflexivity.
  - reflexivity.
Qed.

Lemma ended_game_frozen_witness :
  (∀ index, handleMove index {| board := fullBoard; xTurn := false; versusBot := true |}
            = {| board := fullBoard; xTurn := false; versusBot := true |}) ∧
  botTimer {| board := fullBoard; xTurn := false; versusBot := true |} = None ∧
  step NewGame {| board := fullBoard; xTurn := false; versusBot := true |}
  = Some {| board := replicate 9 None; xTurn := true; versusBot := true |} ∧
  step SwitchMode {| board := fullBoard; xTurn := false; versusBot := true |}
  = Some {| board := replicate 9 None; xTurn := true; versusBot := negb true |}.
Proof.
  apply (ended_game_frozen {| board := fullBoard; xTurn := false; versusBot := true |}).
  vm_compute. discriminate.
Defined.
